(** * Pairwise group classification: a shallow embedding

    Embedding of [pairwise_group_classification.py]: the nearest-anchor
    search [_findMin], the construction of model inputs and targets in
    [fit] and [test], and the main loop over pairs of clinical groups.

    Conventions of the embedding.
    - numpy's float64 values are the binary64 floating-point numbers of
      IEEE 754 ([float]): every operation rounds to the nearest value, ties
      to even; infinities, signed zeros and NaN are values like the others,
      and [==], [<] and [>] are the comparisons of IEEE 754, false as soon
      as one side is NaN.
    - A point on the plane (a row of [threshold], a regressor prediction)
      is a pair of floats; a stream of data and a signature are lists.
    - A Python exception is the [Raise] branch of [outcome]; nothing in the
      script catches one.
    - The libraries the script calls ([esig], [sklearn], [pandas]'s
      printing, [psychiatry.buildData]) are the fields of the class
      [Externals]; what they keep between calls (the seeded random
      generators, the files) is threaded through as [env].
    - The script runs in a monad of state and exceptions; its state holds
      the two results tables and the history of what was done, the
      messages of the logger among it. *)

From Stdlib Require Import Floats ZArith QArith Lia.
From stdpp Require Import gmap strings list fin_maps.

(** ** Exceptions and results *)

Inductive exn : Type :=
  | IndexError
  | ValueError
  | LibraryError (what : string).

Inductive outcome (A : Type) : Type :=
  | Ok (a : A)
  | Raise (e : exn).
Arguments Ok {A} a.
Arguments Raise {A} e.

(** Sequencing stops at the first exception, which is passed on as it is. *)
#[global] Instance outcome_ret : MRet outcome := λ A a, Ok a.

#[global] Instance outcome_bind : MBind outcome := λ A B k c,
  match c with
  | Ok a => k a
  | Raise e => Raise e
  end.

#[global] Instance outcome_fmap : FMap outcome := λ A B f c,
  match c with
  | Ok a => Ok (f a)
  | Raise e => Raise e
  end.

(** ** Points on the plane *)

Module Plane.
Local Open Scope float_scope.

(** A point is a pair of coordinates. *)
Abbreviation point := (float * float)%type (only parsing).

(** [p0 - np.array(p)] on arrays of two coordinates. *)
Definition sub (a b : point) : point := (a.1 - b.1, a.2 - b.2).

(** [np.linalg.norm] of a vector of two coordinates: the square root of
    the inner product of the vector with itself, [sqrt(x.dot(x))], the two
    products, their sum and the root each rounded. *)
Definition norm (v : point) : float := sqrt (v.1 * v.1 + v.2 * v.2).

(** One turn of the loop of [_findMin]: [m] is the pair (best distance,
    best point) so far, [-1] marking that no point was seen. The test
    [m[0] > dist] is [dist < m[0]]. *)
Definition _findMin_step (p : point) (m : float * point) (p0 : point)
    : float * point :=
  let dist := norm (sub p0 p) in
  if m.1 =? -1 then (dist, p0)
  else if dist <? m.1 then (dist, p0)
  else m.

(** [_findMin(p, A)] *)
Definition _findMin (p : point) (A : list point) : point :=
  let m := (-1, (0, 0)) in
  (foldl (_findMin_step p) m A).2.

(** [a == b] on two lists of two floats each, as [list.index] compares a
    row of [threshold.tolist()] with [val.tolist()]: the rows are equal
    when both coordinates are, and a NaN is equal to nothing (the floats
    of the two lists are different objects, so the comparison is the one
    of their values). *)
Definition point_eq (a b : point) : bool := (a.1 =? b.1) && (a.2 =? b.2).

End Plane.

Import Plane.

(** ** Python containers *)

(** [l[i]] for an integer [i]: a negative index counts from the end, an
    index outside [-len(l) .. len(l)-1] raises [IndexError]. *)
Definition getitem {A} (l : list A) (i : Z) : outcome A :=
  let n := Z.of_nat (length l) in
  let i' := if decide (i < 0)%Z then (i + n)%Z else i in
  if decide (0 ≤ i' < n)%Z then
    match l !! Z.to_nat i' with
    | Some a => Ok a
    | None => Raise IndexError
    end
  else Raise IndexError.

(** [l.index(v)]: the position of the first element [a] with [a == v],
    the equality [==] of the elements given as [eqb]; [ValueError] when
    there is none. *)
Fixpoint list_index {A} (eqb : A → A → bool) (l : list A) (v : A) : outcome nat :=
  match l with
  | [] => Raise ValueError
  | a :: l' => if eqb a v then Ok 0%nat else S <$> list_index eqb l' v
  end.

(** [enumerate(l)] and the slice [l[k:]]. *)
Definition enumerate {A} (l : list A) : list (nat * A) :=
  zip (seq 0 (length l)) l.

Definition slice_from {A} (k : nat) (l : list A) : list A := drop k l.

(** ** Participants *)

(** Modelled from the spec: the class [Participant] of [psychiatry] is not
    part of the sources; the spec gives it an identifier, a time series
    [data] (a sequence of points) and a categorical [diagnosis], which the
    script uses as an index into [threshold]. *)
Record Participant : Type := {
  identifier : Z;
  data : list (list float);
  diagnosis : Z;
}.

(** ** The libraries the script calls *)

Class Externals : Type := {
  (** a trained [RandomForestRegressor] *)
  regressor : Type;
  (** the state the libraries keep between calls: the generators of
      [random] and [np.random], and the files [buildData] reads *)
  env : Type;
  (** [tosig.stream2sig(np.array(data), order)] *)
  stream2sig : list (list float) → nat → outcome (list float);
  (** [RandomForestRegressor(n_estimators, oob_score).fit(x, y)] *)
  forest_fit : nat → bool → list (list float) → list point → env →
               outcome regressor * env;
  (** [reg.predict(x)] *)
  predict : regressor → list (list float) → outcome (list point);
  accuracy_score : list nat → list nat → outcome float;
  roc_auc_score : list nat → list nat → outcome float;
  (** [psychiatry.buildData(size, path, training, groups)] *)
  buildData : Z → string → float → string * string → env →
              outcome (list Participant * list Participant) * env;
  (** [random.seed] and [np.random.seed] *)
  random_seed : Z → env → env;
  np_random_seed : Z → env → env;
  (** [DataFrame.to_string] *)
  to_string : list string → gmap (string * string) float → string;
}.

(** ** [fit] and [test] *)

Section Model.
Context `{Externals}.

(** The loop of [fit]: [x] collects the signatures, [y] the anchor points
    of the participants' clinical groups. *)
Fixpoint fit_loop (threshold : list point) (order : nat)
    (collection : list Participant) (x : list (list float)) (y : list point)
    : outcome (list (list float) * list point) :=
  match collection with
  | [] => Ok (x, y)
  | participant :: rest =>
      s ← stream2sig (data participant) order;
      t ← getitem threshold (diagnosis participant);
      fit_loop threshold order rest (x ++ [s]) (y ++ [t])
  end.

(** [fit]: the loop, then the random forest on what it collected. *)
Definition fit (collection : list Participant) (threshold : list point)
    (order : nat) (w : env) : outcome regressor * env :=
  match fit_loop threshold order collection [] [] with
  | Raise e => (Raise e, w)
  | Ok (x, y) => forest_fit 100 true x y w
  end.

(** The loop of [test], written a second time in the source. *)
Fixpoint test_loop (threshold : list point) (order : nat)
    (collection : list Participant) (x : list (list float)) (y : list point)
    : outcome (list (list float) * list point) :=
  match collection with
  | [] => Ok (x, y)
  | X :: rest =>
      s ← stream2sig (data X) order;
      t ← getitem threshold (diagnosis X);
      test_loop threshold order rest (x ++ [s]) (y ++ [t])
  end.

(** [test]: the loop, the predictions, their nearest anchors, the labels
    of both and the two scores. *)
Definition test (collection : list Participant) (reg : regressor)
    (threshold : list point) (order : nat) : outcome (float * float) :=
  '(x, y) ← test_loop threshold order collection [] [];
  predicted_raw ← predict reg x;
  let predicted := (λ prediction, _findMin prediction threshold) <$> predicted_raw in
  predicted_labels ← mapM (list_index point_eq threshold) predicted;
  y_labels ← mapM (list_index point_eq threshold) y;
  acc ← accuracy_score y_labels predicted_labels;
  roc ← roc_auc_score y_labels predicted_labels;
  Ok (acc, roc).

(** ** The script *)

(** What the script does, in the order it does it. *)
Inductive event : Type :=
  | EvLog (msg : string)
  | EvBuildData (groups : string * string)
  | EvFit (ts : list Participant)
  | EvTest (os : list Participant)
  | EvSetAccuracy (group1 group2 : string) (v : float)
  | EvSetAuc (group1 group2 : string) (v : float)
  | EvToString (table : gmap (string * string) float).

(** The state of the script: the libraries' state, the two results tables
    (a cell that was never assigned holds NaN and is absent from the map)
    and the history of the run. *)
Record state : Type := {
  world : env;
  accuracy_results : gmap (string * string) float;
  auc_results : gmap (string * string) float;
  trace : list event;
}.

(** A step of the script: from a state to a result or an exception, and
    the state at that point. *)
Definition M (A : Type) : Type := state → outcome A * state.

#[global] Instance M_ret : MRet M := λ A a s, (Ok a, s).

#[global] Instance M_bind : MBind M := λ A B k c s,
  match c s with
  | (Ok a, s') => k a s'
  | (Raise e, s') => (Raise e, s')
  end.

(** Add an event to the history. *)
Definition emit (ev : event) : M unit := λ s,
  (Ok (), {| world := world s; accuracy_results := accuracy_results s;
             auc_results := auc_results s; trace := trace s ++ [ev] |}).

(** Modelled from the spec: the class [Logger] is not part of the sources;
    the spec has it write what it is given to a log stream. *)
Definition log (msg : string) : M unit := emit (EvLog msg).

(** The tuple [diagnosis] of the script. *)
Definition diagnosis_names : list string := ["healthy"; "bipolar"; "borderline"].

(** A library call that reads and updates the libraries' state. *)
Definition in_world {A} (f : env → outcome A * env) : M A := λ s,
  let '(r, w) := f (world s) in
  (r, {| world := w; accuracy_results := accuracy_results s;
         auc_results := auc_results s; trace := trace s |}).

(** A call that touches no state. *)
Definition pure_call {A} (r : outcome A) : M A := λ s, (r, s).

(** The three calls of a turn, each with its mark in the history. *)
Definition call_buildData (size : Z) (path : string) (training : float)
    (groups : string * string) : M (list Participant * list Participant) :=
  emit (EvBuildData groups);;
  in_world (buildData size path training groups).

Definition call_fit (ts : list Participant) (threshold : list point)
    (order : nat) : M regressor :=
  emit (EvFit ts);;
  in_world (fit ts threshold order).

Definition call_test (os : list Participant) (reg : regressor)
    (threshold : list point) (order : nat) : M (float * float) :=
  emit (EvTest os);;
  pure_call (test os reg threshold order).

(** [accuracy_results.loc[group1][group2] = v], for labels of the table:
    the row [.loc] selects is the table's own (the frame holds one dtype),
    so the assignment lands in the cell (group1, group2). *)
Definition assign_accuracy (group1 group2 : string) (v : float) : M unit := λ s,
  (Ok (), {| world := world s;
             accuracy_results := <[(group1, group2) := v]> (accuracy_results s);
             auc_results := auc_results s; trace := trace s |}).

(** [auc_results.loc[group1][group2] = v] *)
Definition assign_auc (group1 group2 : string) (v : float) : M unit := λ s,
  (Ok (), {| world := world s; accuracy_results := accuracy_results s;
             auc_results := <[(group1, group2) := v]> (auc_results s);
             trace := trace s |}).

(** The two assignments, with their mark in the history. *)
Definition set_accuracy (group1 group2 : string) (v : float) : M unit :=
  emit (EvSetAccuracy group1 group2 v);;
  assign_accuracy group1 group2 v.

Definition set_auc (group1 group2 : string) (v : float) : M unit :=
  emit (EvSetAuc group1 group2 v);;
  assign_auc group1 group2 v.

(** The tables as they are when they are printed. *)
Definition read_accuracy : M (gmap (string * string) float) := λ s,
  (Ok (accuracy_results s), s).

Definition read_auc : M (gmap (string * string) float) := λ s,
  (Ok (auc_results s), s).

(** [logger.log(table.to_string())] *)
Definition log_table (t : gmap (string * string) float) : M unit :=
  emit (EvToString t);;
  log (to_string diagnosis_names t).

(** The line feed of ["Done.\n"]. *)
Definition newline : string := String (Ascii.ascii_of_nat 10) EmptyString.

(** The keyword argument [training=0.7] of [buildData]: the float nearest
    to 0.7. *)
Definition training : float := 0x1.6666666666666p-1.

(** The body of the double loop, for one pair of groups. *)
Definition iteration (threshold : list point) (group1 group2 : string) : M unit :=
  let groups := (group1, group2) in
  log ("Loading " +:+ group1 +:+ " and " +:+ group2 +:+ "...");;
  '(ts, os) ← call_buildData 20 "../data" training groups;
  log ("Done." +:+ newline);;
  log "Training the model...";;
  reg ← call_fit ts threshold 2;
  log ("Done." +:+ newline);;
  log "Testing the model...";;
  '(accuracy, auc) ← call_test os reg threshold 2;
  log "Done.";;
  set_accuracy group1 group2 accuracy;;
  set_auc group1 group2 auc.

(** A [for] loop over a list. *)
Fixpoint for_each {A} (l : list A) (body : A → M unit) : M unit :=
  match l with
  | [] => mret ()
  | a :: l' => body a;; for_each l' body
  end.

(** The anchors of the three clinical groups. *)
Definition threshold : list point :=
  [ (1, 0); (0, 1); (-1 / sqrt 2, -1 / sqrt 2) ]%float.

(** The double loop over the pairs of groups. *)
Definition main_loop : M unit :=
  for_each (enumerate diagnosis_names) (λ '(i, group1),
    for_each (slice_from (i + 1) diagnosis_names) (λ group2,
      iteration threshold group1 group2)).

(** The last lines of the script. *)
Definition print_results : M unit :=
  log "###########";;
  log "  Results  ";;
  log "###########";;
  log "Accuracy:";;
  (t ← read_accuracy; log_table t);;
  log "AUC:";;
  (t ← read_auc; log_table t).

(** The script, from the state [w] of the libraries: the two seeds, the
    empty tables, the loop, the results. *)
Definition main (w : env) : outcome unit * state :=
  let w := random_seed 83042 w in
  let w := np_random_seed 83042 w in
  (main_loop;; print_results)
    {| world := w; accuracy_results := ∅; auc_results := ∅; trace := [] |}.

End Model.

(** * The vocabulary of the properties *)

(** ** Python containers *)

Section ContainersVocabulary.
Context {A : Type}.
Implicit Types (l : list A) (v : A).

(** An index is valid for [l] when [l[i]] does not raise. *)
Definition valid_index l (i : Z) : Prop :=
  (- Z.of_nat (length l) ≤ i < Z.of_nat (length l))%Z.

(** [l.index(v)] is the first position that holds an element equal to
    [v], for the equality [eqb] of the elements. *)
Definition first_index (eqb : A → A → bool) l v (k : nat) : Prop :=
  (∃ a, l !! k = Some a ∧ eqb a v = true) ∧
  ∀ j a, (j < k)%nat → l !! j = Some a → eqb a v = false.

End ContainersVocabulary.

(** ** Floats and the numbers they stand for *)

Section Numbers.

(** A float with a value: a zero or a finite number, no infinity, no NaN. *)
Definition finite (x : float) : bool :=
  match Prim2SF x with
  | S754_zero _ | S754_finite _ _ _ => true
  | _ => false
  end.

(** The rational number a finite float stands for, [m * 2 ^ e] with its
    sign (and 0 for the infinities and NaN, which stand for none). *)
Definition exact (x : float) : Q :=
  match Prim2SF x with
  | S754_finite s m e =>
      ((if s then -1 else 1) * inject_Z (Z.pos m) * Qpower 2 e)%Q
  | _ => 0%Q
  end.

Definition finite_point (p : point) : bool := finite p.1 && finite p.2.

(** The square of the Euclidean distance between two points, without
    rounding. Of two distances the smaller one has the smaller square. *)
Definition sqdist_exact (q p : point) : Q :=
  ((exact q.1 - exact p.1) * (exact q.1 - exact p.1)
   + (exact q.2 - exact p.2) * (exact q.2 - exact p.2))%Q.

(** The square of the Euclidean norm of a point, without rounding. *)
Definition sqnorm_exact (q : point) : Q :=
  (exact q.1 * exact q.1 + exact q.2 * exact q.2)%Q.

(** A point of Euclidean norm 1. *)
Definition on_unit_circle (q : point) : Prop := (sqnorm_exact q == 1)%Q.

(** A value a rounding gives when it is given the sign [s]: a zero, a
    finite number or an infinity of that sign, and no NaN. *)
Definition signed (s : bool) (x : spec_float) : Prop :=
  match x with
  | S754_zero s' | S754_infinity s' | S754_finite s' _ _ => s' = s
  | S754_nan => False
  end.

(** Whether two floats are the same value is decidable. *)
#[global] Instance float_eq_dec : EqDecision float.
Proof.
  intros x y. destruct (Leibniz.eqb x y) eqn:E.
  - left. by apply Leibniz.eqb_spec.
  - right. intros Hxy. apply Leibniz.eqb_spec in Hxy. congruence.
Defined.

End Numbers.

(** ** The nearest anchor *)

Section LabelsVocabulary.
Local Open Scope float_scope.
Implicit Types (threshold A : list point) (p q r : point).

(** The distance from [q] to [p] as [_findMin] computes it. *)
Definition distance q p : float := norm (sub q p).

(** [q] is the earliest of the anchors at the least computed distance
    from [p]: the anchors before it are strictly farther, those after it
    at least as far. *)
Definition least_first threshold p q : Prop :=
  ∃ pre post, threshold = pre ++ q :: post ∧
    (∀ x, x ∈ pre → (distance q p <? distance x p) = true) ∧
    (∀ x, x ∈ post → (distance q p <=? distance x p) = true).

(** The same with the computed distances that are NaN taken into account:
    [q] is the first anchor when the distance to it is NaN; if not, it is
    the earliest of the anchors at the least computed distance, the other
    anchors whose distance is NaN being passed over. *)
Definition nearest_first threshold p q : Prop :=
  ∃ pre post, threshold = pre ++ q :: post ∧
    ((pre = [] ∧ is_nan (distance q p) = true) ∨
     (is_nan (distance q p) = false ∧
      (∀ x, head pre = Some x → is_nan (distance x p) = false) ∧
      (∀ x, x ∈ pre →
         is_nan (distance x p) = true ∨ (distance q p <? distance x p) = true) ∧
      (∀ x, x ∈ post →
         is_nan (distance x p) = true ∨ (distance q p <=? distance x p) = true))).

(** [r] is a point of [A] at the least Euclidean distance from [p]. *)
Definition nearest_exactly A p r : Prop :=
  r ∈ A ∧ ∀ q, q ∈ A → (sqdist_exact r p <= sqdist_exact q p)%Q.

(** [r] is the earliest of the points of [A] at the least Euclidean
    distance from [p]. *)
Definition earliest_nearest_exactly A p r : Prop :=
  ∃ pre post, A = pre ++ r :: post ∧
    (∀ x, x ∈ pre → (sqdist_exact r p < sqdist_exact x p)%Q) ∧
    (∀ x, x ∈ post → (sqdist_exact r p <= sqdist_exact x p)%Q).

(** The reading of the claim on [_findMin] with distances as real
    numbers: on points with finite coordinates the result is a point of
    the list at the least Euclidean distance. *)
Definition findMin_returns_nearest : Prop :=
  ∀ p A, finite_point p = true → (∀ q, q ∈ A → finite_point q = true) →
    A ≠ [] → nearest_exactly A p (_findMin p A).

(** The reading of the claim on ties with distances as real numbers: the
    result is the earliest point at the least Euclidean distance. *)
Definition findMin_returns_earliest_nearest : Prop :=
  ∀ p A, finite_point p = true → (∀ q, q ∈ A → finite_point q = true) →
    A ≠ [] → earliest_nearest_exactly A p (_findMin p A).

(** [t] is the one anchor nearest to [p]: the computed distance of every
    other anchor is strictly larger. *)
Definition strictly_nearest threshold p t : Prop :=
  t ∈ threshold ∧
  ∀ q, q ∈ threshold → q ≠ t → (distance t p <? distance q p) = true.

(** The rows of [threshold] are pairwise different, and each is equal to
    itself, for the equality [==] of [index]. *)
Definition distinct_rows (threshold : list point) : Prop :=
  ∀ i j a b, threshold !! i = Some a → threshold !! j = Some b →
    point_eq a b = true ↔ i = j.

End LabelsVocabulary.

(** ** Inputs, labels and runs *)

Section Vocabulary.
Context `{Externals}.
Implicit Types (threshold : list point) (collection : list Participant).
Implicit Types (x : list (list float)) (y : list point).

(** What the loops of [fit] and [test] are to compute. The signatures of
    the participants, in the order of the collection. *)
Definition inputs_of (order : nat) collection x : Prop :=
  Forall2 (λ P s, stream2sig (data P) order = Ok s) collection x.

(** The anchors of the diagnoses, in the order of the collection. *)
Definition targets_of threshold collection y : Prop :=
  Forall2 (λ P t, getitem threshold (diagnosis P) = Ok t) collection y.

(** The label [test] gives a prediction: the index of the anchor nearest
    to it by the computed distances. *)
Definition predicted_label threshold (prediction : point) (k : nat) : Prop :=
  ∃ q, nearest_first threshold prediction q ∧ first_index point_eq threshold q k.

(** The label of a prediction when distances are real numbers: the index
    of an anchor at the least Euclidean distance from it. *)
Definition nearest_label threshold (prediction : point) (k : nat) : Prop :=
  ∃ q, nearest_exactly threshold prediction q ∧ first_index point_eq threshold q k.

(** The label of a participant: the index of the anchor of its diagnosis. *)
Definition true_label threshold (P : Participant) (k : nat) : Prop :=
  ∃ t, getitem threshold (diagnosis P) = Ok t ∧ first_index point_eq threshold t k.

(** The reading of the claim on [test] with distances as real numbers:
    for anchors and predictions with finite coordinates, the scores
    [test] returns are those of the true labels against the labels of the
    anchors at the least Euclidean distance from the predictions. *)
Definition scores_of_nearest_anchors : Prop :=
  ∀ threshold collection order reg acc roc,
    (∀ q, q ∈ threshold → finite_point q = true) →
    (∀ x raw p, predict reg x = Ok raw → p ∈ raw → finite_point p = true) →
    test collection reg threshold order = Ok (acc, roc) →
    ∃ x predicted_raw predicted_labels y_labels,
      inputs_of order collection x ∧
      predict reg x = Ok predicted_raw ∧
      Forall2 (nearest_label threshold) predicted_raw predicted_labels ∧
      Forall2 (true_label threshold) collection y_labels ∧
      accuracy_score y_labels predicted_labels = Ok acc ∧
      roc_auc_score y_labels predicted_labels = Ok roc.

(** The reading of the claim on the lookups of labels for every
    [threshold]: a non-empty [threshold] and valid diagnoses are enough for
    both lists of labels to exist. *)
Definition label_lookups_never_fail : Prop :=
  ∀ threshold collection order reg x y predicted_raw,
    threshold ≠ [] →
    (∀ P, P ∈ collection → valid_index threshold (diagnosis P)) →
    test_loop threshold order collection [] [] = Ok (x, y) →
    predict reg x = Ok predicted_raw →
    ∃ predicted_labels y_labels,
      mapM (list_index point_eq threshold)
           ((λ p, _findMin p threshold) <$> predicted_raw) = Ok predicted_labels ∧
      mapM (list_index point_eq threshold) y = Ok y_labels.

Implicit Types (s : state) (group : string).

(** ["Loading {} and {}...".format(group1, group2)] *)
Definition loading_message (group1 group2 : string) : string :=
  "Loading " +:+ group1 +:+ " and " +:+ group2 +:+ "...".

(** The history of one full turn of the loop. *)
Definition block (group1 group2 : string) (ts os : list Participant) (accuracy auc : float)
    : list event :=
  [ EvLog (loading_message group1 group2);
    EvBuildData (group1, group2);
    EvLog ("Done." +:+ newline);
    EvLog "Training the model...";
    EvFit ts;
    EvLog ("Done." +:+ newline);
    EvLog "Testing the model...";
    EvTest os;
    EvLog "Done.";
    EvSetAccuracy group1 group2 accuracy;
    EvSetAuc group1 group2 auc ].

(** The state after a turn that stopped early: only the libraries' state
    and the history have moved. *)
Definition stopped s (w : env) (evs : list event) : state :=
  {| world := w; accuracy_results := accuracy_results s;
     auc_results := auc_results s; trace := trace s ++ evs |}.

(** The state after a full turn. *)
Definition recorded s (w : env) (group1 group2 : string) ts os (accuracy auc : float) : state :=
  {| world := w;
     accuracy_results := <[(group1, group2) := accuracy]> (accuracy_results s);
     auc_results := <[(group1, group2) := auc]> (auc_results s);
     trace := trace s ++ block group1 group2 ts os accuracy auc |}.

(** The pairs the double loop goes through, in its order. *)
Definition main_pairs : list (string * string) :=
  concat ((λ '(i, group1),
             (λ group2, (group1, group2)) <$> slice_from (i + 1) diagnosis_names)
          <$> enumerate diagnosis_names).

(** The body of the loop, run on a list of pairs in turn. *)
Definition run_pairs (threshold : list point) (ps : list (string * string)) : M unit :=
  for_each ps (λ '(group1, group2), iteration threshold group1 group2).

(** A full turn of the loop: its pair, the two sets [buildData] returned
    and the two scores. *)
Record turn : Type := {
  turn_pair : string * string;
  turn_ts : list Participant;
  turn_os : list Participant;
  turn_accuracy : float;
  turn_auc : float;
}.

(** The history of a full turn. *)
Definition turn_block (t : turn) : list event :=
  block (turn_pair t).1 (turn_pair t).2 (turn_ts t) (turn_os t)
        (turn_accuracy t) (turn_auc t).

(** [completed threshold s ts s']: from [s], the turns [ts] ran in this
    order, each to its end, and left the state [s']. *)
Inductive completed (threshold : list point) : state → list turn → state → Prop :=
  | completed_nil s : completed threshold s [] s
  | completed_cons s t w1 reg w2 ts s' :
      buildData 20 "../data" training (turn_pair t) (world s)
        = (Ok (turn_ts t, turn_os t), w1) →
      fit (turn_ts t) threshold 2 w1 = (Ok reg, w2) →
      test (turn_os t) reg threshold 2 = Ok (turn_accuracy t, turn_auc t) →
      completed threshold
        (recorded s w2 (turn_pair t).1 (turn_pair t).2 (turn_ts t) (turn_os t)
                  (turn_accuracy t) (turn_auc t)) ts s' →
      completed threshold s (t :: ts) s'.

(** [failed threshold group1 group2 s e s']: the turn for the pair stopped
    at a call that raised [e]. *)
Inductive failed (threshold : list point) (group1 group2 : string) s (e : exn)
    : state → Prop :=
  | failed_buildData w1 :
      buildData 20 "../data" training (group1, group2) (world s) = (Raise e, w1) →
      failed threshold group1 group2 s e
        (stopped s w1 (take 2 (block group1 group2 [] [] 0 0)))
  | failed_fit ts os w1 w2 :
      buildData 20 "../data" training (group1, group2) (world s)
        = (Ok (ts, os), w1) →
      fit ts threshold 2 w1 = (Raise e, w2) →
      failed threshold group1 group2 s e
        (stopped s w2 (take 5 (block group1 group2 ts [] 0 0)))
  | failed_test ts os w1 reg w2 :
      buildData 20 "../data" training (group1, group2) (world s)
        = (Ok (ts, os), w1) →
      fit ts threshold 2 w1 = (Ok reg, w2) →
      test os reg threshold 2 = Raise e →
      failed threshold group1 group2 s e
        (stopped s w2 (take 8 (block group1 group2 ts os 0 0))).

(** The state the loop starts from. *)
Definition initial (w : env) : state :=
  {| world := np_random_seed 83042 (random_seed 83042 w);
     accuracy_results := ∅; auc_results := ∅; trace := [] |}.

(** The history of the printing of the results, from a state [s]. *)
Definition results_block s : list event :=
  [ EvLog "###########";
    EvLog "  Results  ";
    EvLog "###########";
    EvLog "Accuracy:";
    EvToString (accuracy_results s);
    EvLog (to_string diagnosis_names (accuracy_results s));
    EvLog "AUC:";
    EvToString (auc_results s);
    EvLog (to_string diagnosis_names (auc_results s)) ].

(** The state after the printing of the results. *)
Definition printed s : state := stopped s (world s) (results_block s).

(** The assignments to the tables in a history. *)
Definition is_record (ev : event) : bool :=
  match ev with
  | EvSetAccuracy _ _ _ | EvSetAuc _ _ _ => true
  | _ => false
  end.

(** The calls of [buildData] in a history. *)
Definition is_load (ev : event) : bool :=
  match ev with
  | EvBuildData _ => true
  | _ => false
  end.

Definition records (tr : list event) : list event := filter (λ ev, is_record ev) tr.
Definition loads (tr : list event) : list event := filter (λ ev, is_load ev) tr.

(** The renderings of a table in a history. *)
Definition is_print (ev : event) : bool :=
  match ev with
  | EvToString _ => true
  | _ => false
  end.

(** The reading of the frame property under which the tables are all
    that passes from one turn of the loop to the next: a turn leaves the
    cells of the other pairs as they were, and the state of the libraries
    too. *)
Definition touches_only_its_cell (threshold : list point)
    (group1 group2 : string) s : Prop :=
  let s' := (iteration threshold group1 group2 s).2 in
  (∀ c, c ≠ (group1, group2) →
     accuracy_results s' !! c = accuracy_results s !! c ∧
     auc_results s' !! c = auc_results s !! c) ∧
  world s' = world s.

End Vocabulary.

(** * A small library to run the script on *)

Section ToyLibrary.
Local Open Scope float_scope.

(** The diagnosis of the participants of a group, as the loader of the
    small library assigns it. *)
Definition group_code (group : string) : Z :=
  if decide (group = "healthy") then 0
  else if decide (group = "bipolar") then 1
  else 2.

(** A participant with a stream of two points. *)
Definition toy_participant (id d : Z) : Participant :=
  {| identifier := id; data := [[0; 0]; [1; 2]]; diagnosis := d |}.

(** A count as a float. *)
Definition float_of_nat (n : nat) : float :=
  of_uint63 (Uint63.of_Z (Z.of_nat n)).

(** The share of positions at which two lists of labels agree. *)
Definition agreement (y_labels predicted_labels : list nat) : float :=
  float_of_nat (length (filter (λ ab, ab.1 = ab.2) (zip y_labels predicted_labels)))
  / float_of_nat (length y_labels).

(** A loader that returns two participants per set, one of each group,
    except for the pairs whose files are [missing]; a signature that
    flattens the stream; a regressor that always gives the same [answer];
    no state. *)
Definition toy_with (answer : point) (missing : string * string → bool)
    : Externals := {|
  regressor := unit;
  env := unit;
  stream2sig := λ stream _, Ok (concat stream);
  forest_fit := λ _ _ _ _ w, (Ok (), w);
  predict := λ _ x, Ok ((λ _, answer) <$> x);
  accuracy_score := λ y_labels predicted_labels,
    Ok (agreement y_labels predicted_labels);
  roc_auc_score := λ _ _, Ok 0.5;
  buildData := λ _ _ _ groups w,
    if missing groups
    then (Raise (LibraryError "IOError"), w)
    else (Ok ([toy_participant 1 (group_code groups.1);
               toy_participant 2 (group_code groups.2)],
              [toy_participant 3 (group_code groups.1);
               toy_participant 4 (group_code groups.2)]), w);
  random_seed := λ _ w, w;
  np_random_seed := λ _ w, w;
  to_string := λ _ _, "";
|}.

(** The regressor that always answers the first anchor. *)
Definition toy (missing : string * string → bool) : Externals :=
  toy_with (1, 0) missing.

(** All files are there. *)
Definition complete : string * string → bool := λ _, false.

(** The files of the pair (healthy, borderline) are not. *)
Definition no_healthy_borderline : string * string → bool :=
  λ groups, bool_decide (groups = ("healthy", "borderline")).

(** The regressor that answers a point far out on the first axis. *)
Definition toy_far : Externals := toy_with (1e20, 0) complete.

(** A library with a random generator, as [sklearn] has it in numpy's
    global generator, which the script seeds before the loop and from
    which a forest draws when it is fitted: the state of the libraries is
    the state of the generator, a seed sets it, and fitting moves it on. *)
Definition seeded : Externals := {|
  regressor := Z;
  env := Z;
  stream2sig := λ stream _, Ok (concat stream);
  forest_fit := λ _ _ _ _ w, (Ok w, (w + 1)%Z);
  predict := λ _ x, Ok ((λ _, (1, 0)) <$> x);
  accuracy_score := λ y_labels predicted_labels,
    Ok (agreement y_labels predicted_labels);
  roc_auc_score := λ _ _, Ok 0.5;
  buildData := λ _ _ _ groups w,
    (Ok ([toy_participant 1 (group_code groups.1);
          toy_participant 2 (group_code groups.2)],
         [toy_participant 3 (group_code groups.1);
          toy_participant 4 (group_code groups.2)]), w);
  random_seed := λ seed _, seed;
  np_random_seed := λ seed _, seed;
  to_string := λ _ _, "";
|}.

(** The out-of-sample set and the training set the loader returns. *)
Definition toy_os (group1 group2 : string) : list Participant :=
  [toy_participant 3 (group_code group1); toy_participant 4 (group_code group2)].

Definition toy_ts (group1 group2 : string) : list Participant :=
  [toy_participant 1 (group_code group1); toy_participant 2 (group_code group2)].

(** The state a full run on the small library ends in. *)
Definition toy_final : state (H := toy complete) :=
  printed
    (recorded
       (recorded
          (recorded (initial (H := toy complete) ()) () "healthy" "bipolar"
             (toy_ts "healthy" "bipolar") (toy_os "healthy" "bipolar")
             (agreement [0; 1]%nat [0; 0]%nat) 0.5)
          () "healthy" "borderline"
          (toy_ts "healthy" "borderline") (toy_os "healthy" "borderline")
          (agreement [0; 2]%nat [0; 0]%nat) 0.5)
       () "bipolar" "borderline"
       (toy_ts "bipolar" "borderline") (toy_os "bipolar" "borderline")
       (agreement [1; 2]%nat [0; 0]%nat) 0.5).

(** The state the run ends in when the files of (healthy, borderline) are
    missing: one pair recorded, the second turn stopped at [buildData]. *)
Definition toy_stopped : state (H := toy no_healthy_borderline) :=
  stopped
    (recorded (initial (H := toy no_healthy_borderline) ()) () "healthy" "bipolar"
       (toy_ts "healthy" "bipolar") (toy_os "healthy" "bipolar")
       (agreement [0; 1]%nat [0; 0]%nat) 0.5)
    () (take 2 (block "healthy" "borderline" [] [] 0 0)).

(** The third anchor of the script, the float of [-1/np.sqrt(2)]: it is
    [-6369051672525772 * 2 ^ -53], about -0.7071067811865475. *)
Definition third_anchor : float := -0x1.6a09e667f3bccp-1.

(** Two points with whole coordinates at the same Euclidean distance from
    the origin: the squares of their coordinates have the same sum. *)
Definition origin : point := (0, 0).
Definition tie_a : point := (156834264, 450501129).
Definition tie_b : point := (466923276, 97626369).

End ToyLibrary.

(** * Properties *)

(** ** The order of the floats *)

Section SpecOrder.
Implicit Types (a b c : spec_float).

Lemma SFcompare_antisym a b :
  SFcompare b a = option_map CompOpp (SFcompare a b).
Proof.
  destruct a as [[]|[]| |[] ma ea], b as [[]|[]| |[] mb eb]; try reflexivity;
    cbn; f_equal; rewrite (Z.compare_antisym ea eb);
    destruct (ea ?= eb)%Z; cbn; try reflexivity;
    rewrite !Pos.compare_cont_spec, (Pos.compare_antisym ma mb); cbn;
    by destruct (ma ?= mb)%positive.
Qed.

Lemma SFcompare_refl a : a ≠ S754_nan → SFcompare a a = Some Eq.
Proof.
  destruct a as [[]|[]| |[] m e]; try done; intros _; cbn;
    rewrite Z.compare_refl, Pos.compare_cont_refl; done.
Qed.

Lemma SFcompare_lt_trans a b c :
  SFcompare a b = Some Lt → SFcompare b c = Some Lt → SFcompare a c = Some Lt.
Proof.
  destruct a as [[]|[]| |[] ma ea], b as [[]|[]| |[] mb eb],
    c as [[]|[]| |[] mc ec]; cbn; try done;
    rewrite ?Pos.compare_cont_spec; cbn;
    destruct (Z.compare_spec ea eb), (Z.compare_spec eb ec),
      (Z.compare_spec ea ec); try done; try lia;
    destruct (Pos.compare_spec ma mb), (Pos.compare_spec mb mc),
      (Pos.compare_spec ma mc); cbn; try done; try lia.
Qed.

Lemma SFcompare_lt_le_trans a b c :
  SFcompare a b = Some Lt → SFleb b c = true → SFcompare a c = Some Lt.
Proof.
  unfold SFleb.
  destruct a as [[]|[]| |[] ma ea], b as [[]|[]| |[] mb eb],
    c as [[]|[]| |[] mc ec]; cbn; try done;
    rewrite ?Pos.compare_cont_spec; cbn;
    destruct (Z.compare_spec ea eb), (Z.compare_spec eb ec),
      (Z.compare_spec ea ec); try done; try lia;
    destruct (Pos.compare_spec ma mb), (Pos.compare_spec mb mc),
      (Pos.compare_spec ma mc); cbn; try done; try lia.
Qed.

Lemma SFcompare_total a b :
  a ≠ S754_nan → b ≠ S754_nan → is_Some (SFcompare a b).
Proof.
  destruct a as [[]|[]| |[] ma ea], b as [[]|[]| |[] mb eb]; cbn; try done;
    intros _ _; by eexists.
Qed.
End SpecOrder.

Section FloatOrder.
Local Open Scope float_scope.
Implicit Types (x y z : float).

Lemma is_nan_spec x : is_nan x = false ↔ Prim2SF x ≠ S754_nan.
Proof.
  unfold is_nan. rewrite FloatAxioms.eqb_spec. unfold SFeqb. split.
  - intros Hx E. rewrite E in Hx. done.
  - intros Hx. by rewrite SFcompare_refl.
Qed.

Lemma ltb_irrefl x : (x <? x) = false.
Proof.
  rewrite FloatAxioms.ltb_spec. unfold SFltb.
  destruct (Prim2SF x) as [[]|[]| |[] m e] eqn:E; try done;
    by rewrite SFcompare_refl.
Qed.

Lemma ltb_trans x y z : (x <? y) = true → (y <? z) = true → (x <? z) = true.
Proof.
  rewrite !FloatAxioms.ltb_spec. unfold SFltb.
  destruct (SFcompare (Prim2SF x) (Prim2SF y)) as [[]|] eqn:E1; try done.
  destruct (SFcompare (Prim2SF y) (Prim2SF z)) as [[]|] eqn:E2; try done.
  by rewrite (SFcompare_lt_trans _ _ _ E1 E2).
Qed.

Lemma ltb_leb_trans x y z : (x <? y) = true → (y <=? z) = true → (x <? z) = true.
Proof.
  rewrite !FloatAxioms.ltb_spec, FloatAxioms.leb_spec. unfold SFltb.
  destruct (SFcompare (Prim2SF x) (Prim2SF y)) as [[]|] eqn:E1; try done.
  intros _ E2. by rewrite (SFcompare_lt_le_trans _ _ _ E1 E2).
Qed.

Lemma not_ltb_leb x y :
  is_nan x = false → is_nan y = false → (y <? x) = false → (x <=? y) = true.
Proof.
  rewrite !is_nan_spec, FloatAxioms.ltb_spec, FloatAxioms.leb_spec. unfold SFltb, SFleb.
  intros Hx Hy. rewrite (SFcompare_antisym (Prim2SF x) (Prim2SF y)).
  destruct (SFcompare_total _ _ Hx Hy) as [c ->]. by destruct c.
Qed.

Lemma ltb_leb x y : (x <? y) = true → (x <=? y) = true.
Proof.
  rewrite FloatAxioms.ltb_spec, FloatAxioms.leb_spec. unfold SFltb, SFleb.
  by destruct (SFcompare _ _) as [[]|].
Qed.

Lemma leb_antisym x y : (x <=? y) = true → (y <=? x) = true → (x =? y) = true.
Proof.
  rewrite !FloatAxioms.leb_spec, FloatAxioms.eqb_spec. unfold SFleb, SFeqb.
  rewrite (SFcompare_antisym (Prim2SF x) (Prim2SF y)).
  by destruct (SFcompare _ _) as [[]|].
Qed.

Lemma leb_not_ltb x y : (x <=? y) = true → (y <? x) = false.
Proof.
  rewrite FloatAxioms.leb_spec, FloatAxioms.ltb_spec. unfold SFleb, SFltb.
  rewrite (SFcompare_antisym (Prim2SF x) (Prim2SF y)).
  by destruct (SFcompare _ _) as [[]|].
Qed.

(** A square root is never -1. *)
Lemma sqrt_not_minus_one x : (sqrt x =? -1) = false.
Proof.
  rewrite FloatAxioms.eqb_spec, FloatAxioms.sqrt_spec. unfold SFeqb, SF64sqrt, SFsqrt.
  change (Prim2SF (-1)) with (S754_finite true 4503599627370496 (-52)).
  destruct (Prim2SF x) as [[]|[]| |[] m e]; try reflexivity.
  destruct (SFsqrt_core_binary _ _ _ _) as [[mz ez] lz].
  unfold binary_round_aux.
  destruct (shr_fexp _ _ _ _ _) as [mrs' e'].
  destruct (shr_fexp _ _ _ _ _) as [mrs'' e''].
  destruct (shr_m mrs''); try reflexivity.
  by destruct (_ <=? _)%Z.
Qed.
End FloatOrder.

Section FloatNaN.
Local Open Scope float_scope.
Implicit Types (x y z : float).

Lemma is_nan_true x : is_nan x = true ↔ Prim2SF x = S754_nan.
Proof.
  pose proof (is_nan_spec x) as Hx. split.
  - intros E. destruct (Prim2SF x) eqn:Ex; try done;
      (assert (is_nan x = false) as E' by (by apply Hx)); congruence.
  - intros E. destruct (is_nan x); [done|]. by destruct (proj1 Hx eq_refl).
Qed.

(** A comparison with NaN is false. *)
Lemma ltb_nan_l x y : is_nan x = true → (x <? y) = false.
Proof.
  rewrite is_nan_true, FloatAxioms.ltb_spec. intros ->. reflexivity.
Qed.

Lemma ltb_nan_r x y : is_nan y = true → (x <? y) = false.
Proof.
  rewrite is_nan_true, FloatAxioms.ltb_spec. intros ->. unfold SFltb.
  by destruct (Prim2SF x) as [[]|[]| |[] m e].
Qed.

Lemma ltb_not_nan x y : (x <? y) = true → is_nan x = false ∧ is_nan y = false.
Proof.
  intros Hlt. split.
  - destruct (is_nan x) eqn:E; [|done]. by rewrite ltb_nan_l in Hlt.
  - destruct (is_nan y) eqn:E; [|done]. by rewrite ltb_nan_r in Hlt.
Qed.

Lemma ltb_asym x y : (x <? y) = true → (y <? x) = false.
Proof.
  intros Hlt. destruct (y <? x) eqn:E; [|done].
  pose proof (ltb_trans _ _ _ Hlt E) as Hxx. by rewrite ltb_irrefl in Hxx.
Qed.

Lemma leb_refl x : is_nan x = false → (x <=? x) = true.
Proof. intros Hx. apply not_ltb_leb; [done|done|apply ltb_irrefl]. Qed.

End FloatNaN.

(** ** No NaN from finite coordinates *)

Section Rounding.
Local Open Scope Z_scope.

Lemma shr_1_nonneg mrs : 0 ≤ shr_m mrs → 0 ≤ shr_m (shr_1 mrs).
Proof. destruct mrs as [[|[p|p|]|p] r s]; cbn; lia. Qed.

Lemma iter_shr_1_nonneg n : ∀ mrs,
  0 ≤ shr_m mrs → 0 ≤ shr_m (SpecFloat.iter_pos shr_1 n mrs).
Proof.
  induction n as [n IH|n IH|]; intros mrs Hm; cbn.
  - by apply IH, IH, shr_1_nonneg.
  - by apply IH, IH.
  - by apply shr_1_nonneg.
Qed.

Lemma shr_nonneg mrs e n : 0 ≤ shr_m mrs → 0 ≤ shr_m (shr mrs e n).1.
Proof.
  intros Hm. destruct n as [|p|p]; cbn; [done| |done].
  by apply iter_shr_1_nonneg.
Qed.

Lemma shr_fexp_nonneg prec emax m e l :
  0 ≤ m → 0 ≤ shr_m (shr_fexp prec emax m e l).1.
Proof.
  intros Hm. unfold shr_fexp. apply shr_nonneg.
  by destruct l as [|[]].
Qed.

Lemma round_nearest_even_nonneg m l : 0 ≤ m → 0 ≤ round_nearest_even m l.
Proof.
  intros Hm. destruct l as [|[]]; cbn; [done| |done|lia].
  destruct (IntDef.Z.even m); lia.
Qed.

Lemma binary_round_aux_signed prec emax s m e l :
  0 ≤ m → signed s (binary_round_aux prec emax s m e l).
Proof.
  intros Hm. unfold binary_round_aux.
  pose proof (shr_fexp_nonneg prec emax m e l Hm) as H1.
  destruct (shr_fexp prec emax m e l) as [mrs' e']. cbn [fst] in H1.
  pose proof (shr_fexp_nonneg prec emax
                (round_nearest_even (shr_m mrs') (loc_of_shr_record mrs')) e'
                loc_Exact (round_nearest_even_nonneg _ _ H1)) as H2.
  destruct (shr_fexp prec emax _ e' loc_Exact) as [mrs'' e'']. cbn [fst] in H2.
  destruct (shr_m mrs'') as [|q|q]; [done| |lia].
  by destruct (e'' <=? emax - prec).
Qed.

Lemma binary_round_signed prec emax s m e :
  signed s (binary_round prec emax s m e).
Proof.
  unfold binary_round. destruct (shl_align _ _ _) as [mz ez].
  by apply binary_round_aux_signed.
Qed.

Lemma binary_normalize_not_nan prec emax m e sz :
  binary_normalize prec emax m e sz ≠ S754_nan.
Proof.
  destruct m as [|q|q]; cbn; [done| |].
  - pose proof (binary_round_signed prec emax false q e) as Hs.
    intros E. by rewrite E in Hs.
  - pose proof (binary_round_signed prec emax true q e) as Hs.
    intros E. by rewrite E in Hs.
Qed.

Lemma SFsub_not_nan prec emax x y :
  (if x is (S754_zero _ | S754_finite _ _ _) then True else False) →
  (if y is (S754_zero _ | S754_finite _ _ _) then True else False) →
  SFsub prec emax x y ≠ S754_nan.
Proof.
  destruct x as [[]|[]| |sx mx ex], y as [[]|[]| |sy my ey]; try done.
  intros _ _. apply binary_normalize_not_nan.
Qed.

Lemma SFmul_self_signed prec emax x :
  x ≠ S754_nan → signed false (SFmul prec emax x x).
Proof.
  destruct x as [[]|[]| |sx mx ex]; try done. intros _. cbn [SFmul].
  replace (xorb sx sx) with false by (by destruct sx).
  by apply binary_round_aux_signed.
Qed.

Lemma SFadd_signed prec emax x y :
  signed false x → signed false y → signed false (SFadd prec emax x y).
Proof.
  destruct x as [sx|sx| |sx mx ex], y as [sy|sy| |sy my ey]; cbn [signed];
    try done; intros -> ->; try done.
  cbn. apply binary_round_signed.
Qed.

Lemma SFsqrt_not_nan prec emax x :
  signed false x → SFsqrt prec emax x ≠ S754_nan.
Proof.
  destruct x as [sx|sx| |sx mx ex]; cbn [signed]; try done; intros ->; try done.
  cbn [SFsqrt]. unfold SFsqrt_core_binary. cbv zeta.
  set (m' := match _ with 0 => _ | Z.pos _ => _ | Z.neg _ => _ end).
  pose proof (Z.sqrtrem_spec m') as Hsq.
  assert (0 ≤ m') as Hm'.
  { subst m'. destruct (_ - _); [lia| |lia].
    apply Z.shiftl_nonneg. lia. }
  change IntDef.Z.sqrtrem with Z.sqrtrem.
  destruct (Z.sqrtrem m') as [q r]. specialize (Hsq Hm').
  pose proof (binary_round_aux_signed prec emax false q
                (IntDef.Z.min (fexp prec emax (IntDef.Z.div2 (Zdigits2 (Z.pos mx) + ex + 1)))
                   (IntDef.Z.div2 ex))
                (if (r =? 0) then loc_Exact
                 else loc_Inexact (if (r <=? q) then Lt else Gt))) as Hs.
  intros E. rewrite E in Hs. apply Hs.
  destruct Hsq as [_ Hr]. nia.
Qed.

End Rounding.

Section Finite.
Local Open Scope float_scope.
Implicit Types (x y : float) (p q : point).

Lemma finite_spec x :
  finite x = true ↔
  (if Prim2SF x is (S754_zero _ | S754_finite _ _ _) then True else False).
Proof. unfold finite. by destruct (Prim2SF x). Qed.

(** On points with finite coordinates no computed distance is NaN. *)
Lemma distance_not_nan q p :
  finite_point q = true → finite_point p = true → is_nan (distance q p) = false.
Proof.
  unfold finite_point. rewrite !andb_true_iff, !finite_spec.
  intros [Hq1 Hq2] [Hp1 Hp2].
  rewrite is_nan_spec. unfold distance, norm, sub. cbn [fst snd].
  rewrite FloatAxioms.sqrt_spec. apply SFsqrt_not_nan.
  rewrite FloatAxioms.add_spec. apply SFadd_signed;
    rewrite FloatAxioms.mul_spec; apply SFmul_self_signed;
    rewrite FloatAxioms.sub_spec; by apply SFsub_not_nan.
Qed.

End Finite.

(** ** The nearest anchor *)

Section Nearest.
Local Open Scope float_scope.
Implicit Types (p q r : point) (A : list point).

(** The sentinel [-1] is never a distance, so once a point has been taken
    the first test of the loop is false for good. *)
Lemma distance_not_sentinel q p : (distance q p =? -1) = false.
Proof. apply sqrt_not_minus_one. Qed.

Lemma _findMin_step_first p p0 :
  _findMin_step p (-1, (0, 0)) p0 = (distance p0 p, p0).
Proof. reflexivity. Qed.

Lemma _findMin_step_seen p q p0 :
  _findMin_step p (distance q p, q) p0 =
    if distance p0 p <? distance q p then (distance p0 p, p0)
    else (distance q p, q).
Proof.
  unfold _findMin_step; cbn [fst snd]. fold (distance p0 p).
  by rewrite distance_not_sentinel.
Qed.

(** A first point whose distance is NaN is never replaced. *)
Lemma foldl_step_nan p A q :
  is_nan (distance q p) = true →
  foldl (_findMin_step p) (distance q p, q) A = (distance q p, q).
Proof.
  intros Hq. induction A as [|p0 A IH]; [done|].
  cbn [foldl]. by rewrite _findMin_step_seen, ltb_nan_r.
Qed.

(** The loop from a state that holds a point [q] whose distance is a
    number: the result is the first point of [q :: A] at the least
    distance from [p], a point whose distance is NaN never being taken. *)
Lemma foldl_step_first_min p A : ∀ q,
  is_nan (distance q p) = false →
  ∃ r pre post,
    foldl (_findMin_step p) (distance q p, q) A = (distance r p, r) ∧
    q :: A = pre ++ r :: post ∧
    is_nan (distance r p) = false ∧
    (∀ x, x ∈ pre →
       is_nan (distance x p) = true ∨ (distance r p <? distance x p) = true) ∧
    (∀ x, x ∈ post →
       is_nan (distance x p) = true ∨ (distance r p <=? distance x p) = true).
Proof.
  induction A as [|p0 A IH]; intros q Hq.
  - exists q, [], []. split_and!; try done;
      intros x Hx; by apply elem_of_nil in Hx.
  - cbn [foldl]. rewrite _findMin_step_seen.
    destruct (distance p0 p <? distance q p) eqn:Hlt.
    + destruct (ltb_not_nan _ _ Hlt) as [Hp0 _].
      destruct (IH p0 Hp0) as (r & pre & post & Hf & Hsplit & Hr & Hpre & Hpost).
      exists r, (q :: pre), post. split_and!; [done| |done| |done].
      * by rewrite Hsplit.
      * intros x [->|Hx]%elem_of_cons; [|by apply Hpre]. right.
        destruct pre as [|p1 pre].
        -- injection Hsplit as <- _. done.
        -- injection Hsplit as <- _.
           destruct (Hpre p0 ltac:(left)) as [Hn|Hrp0]; [congruence|].
           by eapply ltb_trans.
    + destruct (IH q Hq) as (r & pre & post & Hf & Hsplit & Hr & Hpre & Hpost).
      destruct pre as [|q1 pre].
      * injection Hsplit as <- <-.
        exists q, [], (p0 :: A). split_and!; [done|done|done| |].
        -- intros x Hx. by apply elem_of_nil in Hx.
        -- intros x [->|Hx]%elem_of_cons; [|by apply Hpost].
           destruct (is_nan (distance p0 p)) eqn:Hp0; [by left|right].
           by apply not_ltb_leb.
      * injection Hsplit as <- ->.
        exists r, (q :: p0 :: pre), post. split_and!; [done|done|done| |done].
        assert ((distance r p <? distance q p) = true) as Hrq.
        { destruct (Hpre q ltac:(left)) as [Hn|Hrq]; [congruence|done]. }
        intros x [->|[->|Hx]%elem_of_cons]%elem_of_cons.
        -- by right.
        -- destruct (is_nan (distance p0 p)) eqn:Hp0; [by left|right].
           eapply ltb_leb_trans; [exact Hrq|]. by apply not_ltb_leb.
        -- apply Hpre. by right.
Qed.

Lemma _findMin_nil p : _findMin p [] = (0, 0).
Proof. reflexivity. Qed.

Lemma _findMin_cons_fold p q A :
  _findMin p (q :: A) = (foldl (_findMin_step p) (distance q p, q) A).2.
Proof. unfold _findMin. cbn [foldl]. by rewrite _findMin_step_first. Qed.

Lemma nearest_first_findMin A p :
  A ≠ [] → nearest_first A p (_findMin p A).
Proof.
  destruct A as [|q A]; [done|]; intros _. rewrite _findMin_cons_fold.
  destruct (is_nan (distance q p)) eqn:Hq.
  - rewrite foldl_step_nan by done. exists [], A. split; [done|]. by left.
  - destruct (foldl_step_first_min p A q Hq)
      as (r & pre & post & -> & Hsplit & Hr & Hpre & Hpost).
    exists pre, post. split; [done|]. right. split_and!; try done.
    intros x Hx. destruct pre as [|q1 pre]; [done|].
    injection Hsplit as <- _. by injection Hx as <-.
Qed.

Lemma nearest_first_elem_of A p q : nearest_first A p q → q ∈ A.
Proof.
  intros (pre & post & -> & _). apply elem_of_app. right. left.
Qed.

(** No point of the list is strictly nearer, by the computed distances,
    than the point taken. *)
Lemma nearest_first_not_lt A p r q :
  nearest_first A p r → q ∈ A → (distance q p <? distance r p) = false.
Proof.
  intros (pre & post & -> & [[-> Hr]|(Hr & _ & Hpre & Hpost)]) Hq.
  - by apply ltb_nan_r.
  - apply elem_of_app in Hq as [Hq|[->|Hq]%elem_of_cons].
    + destruct (Hpre q Hq) as [Hn|Hlt]; [by apply ltb_nan_l|by apply ltb_asym].
    + apply ltb_irrefl.
    + destruct (Hpost q Hq) as [Hn|Hle]; [by apply ltb_nan_l|by apply leb_not_ltb].
Qed.

(** Without NaN among the computed distances, the point taken is the
    earliest at the least one. *)
Lemma nearest_first_least_first A p r :
  (∀ x, x ∈ A → is_nan (distance x p) = false) →
  nearest_first A p r ↔ least_first A p r.
Proof.
  intros Hnan. split.
  - intros (pre & post & -> & [[-> Hr]|(Hr & _ & Hpre & Hpost)]).
    + rewrite Hnan in Hr by left. done.
    + exists pre, post. split_and!; [done| |].
      * intros x Hx. destruct (Hpre x Hx) as [Hn|?]; [|done].
        rewrite Hnan in Hn; [done|]. apply elem_of_app. by left.
      * intros x Hx. destruct (Hpost x Hx) as [Hn|?]; [|done].
        rewrite Hnan in Hn; [done|]. apply elem_of_app. right. by right.
  - intros (pre & post & -> & Hpre & Hpost).
    exists pre, post. split; [done|]. right. split_and!.
    + apply Hnan, elem_of_app. right. left.
    + intros x Hx. apply Hnan, elem_of_app. left.
      destruct pre as [|q1 pre]; [done|]. injection Hx as <-. left.
    + intros x Hx. right. by apply Hpre.
    + intros x Hx. right. by apply Hpost.
Qed.

Lemma least_first_le A p r q :
  least_first A p r → is_nan (distance r p) = false → q ∈ A →
  (distance r p <=? distance q p) = true.
Proof.
  intros (pre & post & -> & Hpre & Hpost) Hr
    [Hq|[->|Hq]%elem_of_cons]%elem_of_app.
  - by apply ltb_leb, Hpre.
  - by apply leb_refl.
  - by apply Hpost.
Qed.

Lemma _findMin_elem_of p A : A ≠ [] → _findMin p A ∈ A.
Proof. intros HA. eapply nearest_first_elem_of. by apply nearest_first_findMin. Qed.

Lemma _findMin_not_lt p A q :
  q ∈ A → (distance q p <? distance (_findMin p A) p) = false.
Proof.
  intros Hq. apply (nearest_first_not_lt A); [|done].
  apply nearest_first_findMin. intros ->. by apply elem_of_nil in Hq.
Qed.

Lemma _findMin_le p A q :
  (∀ x, x ∈ A → is_nan (distance x p) = false) →
  q ∈ A → (distance (_findMin p A) p <=? distance q p) = true.
Proof.
  intros Hnan Hq.
  assert (A ≠ []) as HA by (intros ->; by apply elem_of_nil in Hq).
  apply (least_first_le A); [|by apply Hnan, _findMin_elem_of|done].
  apply nearest_first_least_first; [done|]. by apply nearest_first_findMin.
Qed.

Lemma cons_eq_hd {X} (a b : X) (l k : list X) : a :: l = b :: k → a = b.
Proof. by intros [= -> _]. Qed.

(** C1, amended. For a point [p] and a non-empty list of points [A],
    [_findMin p A] is an element of [A], and no point of [A] is strictly
    nearer to [p] by the distances the function computes, which are
    rounded; when none of these is NaN, as is the case for points with
    finite coordinates, the computed distance of the result is at most
    that of every point of [A]. *)
Theorem findMin_nearest_anchor p A :
  A ≠ [] →
  _findMin p A ∈ A ∧
  (∀ q, q ∈ A → (distance q p <? distance (_findMin p A) p) = false) ∧
  ((∀ q, q ∈ A → is_nan (distance q p) = false) →
   ∀ q, q ∈ A → (distance (_findMin p A) p <=? distance q p) = true) ∧
  (finite_point p = true → (∀ q, q ∈ A → finite_point q = true) →
   ∀ q, q ∈ A → (distance (_findMin p A) p <=? distance q p) = true).
Proof.
  intros HA. split_and!.
  - by apply _findMin_elem_of.
  - intros q Hq. by apply _findMin_not_lt.
  - intros Hnan q Hq. by apply _findMin_le.
  - intros Hp HA' q Hq. apply _findMin_le; [|done].
    intros x Hx. apply distance_not_nan; [by apply HA'|done].
Qed.

(** C1 at the point (0.875, 0.125) and the three anchors of the script. *)
Lemma findMin_nearest_anchor_witness :
  threshold ≠ [] ∧
  _findMin (0.875, 0.125) threshold = (1, 0) ∧
  (_findMin (0.875, 0.125) threshold ∈ threshold ∧
   (∀ q, q ∈ threshold →
      (distance q (0.875, 0.125) <? distance (_findMin (0.875, 0.125) threshold) (0.875, 0.125))
        = false) ∧
   ((∀ q, q ∈ threshold → is_nan (distance q (0.875, 0.125)) = false) →
    ∀ q, q ∈ threshold →
      (distance (_findMin (0.875, 0.125) threshold) (0.875, 0.125) <=? distance q (0.875, 0.125))
        = true) ∧
   (finite_point (0.875, 0.125) = true → (∀ q, q ∈ threshold → finite_point q = true) →
    ∀ q, q ∈ threshold →
      (distance (_findMin (0.875, 0.125) threshold) (0.875, 0.125) <=? distance q (0.875, 0.125))
        = true)).
Proof.
  split; [discriminate|]. split; [reflexivity|].
  apply (findMin_nearest_anchor (0.875, 0.125) threshold). discriminate.
Defined.

(** C1 as stated fails. For the point (1e20, 0) and the list of (0, 1) and
    (0, 0), both computed distances are rounded to 1e20, so the first
    point is kept; the second is nearer: the squares of the two distances
    are 1e40 + 1 and 1e40. *)
Lemma findMin_not_nearest_exactly : ¬ findMin_returns_nearest.
Proof.
  intros Hclaim.
  destruct (Hclaim (1e20, 0) [(0, 1); (0, 0)]) as [_ Hle];
    [reflexivity| |discriminate|].
  { intros q Hq. repeat (apply elem_of_cons in Hq as [->|Hq]); try reflexivity.
    by apply elem_of_nil in Hq. }
  specialize (Hle (0, 0) ltac:(right; left)).
  vm_compute in Hle. by apply Hle.
Qed.

(** C10, amended. On the empty list [_findMin] returns the point (0, 0),
    which is no element of the list, and does not fail. On a non-empty
    list it returns the first point when the computed distance to it is
    NaN; if not, the earliest of the points at the least computed
    distance, the points whose distance is NaN being passed over. So when
    no computed distance is NaN, as for points with finite coordinates,
    every point before the result has a strictly larger computed distance
    and every point after it one at least as large. The distances are the
    rounded ones: of two points at the same Euclidean distance the later
    one is returned when its distance is rounded down and the other's is
    not. *)
Theorem findMin_empty_and_ties :
  (∀ p, _findMin p [] = (0, 0) ∧ _findMin p [] ∉ ([] : list point)) ∧
  (∀ p q A, nearest_first (q :: A) p (_findMin p (q :: A))) ∧
  (∀ p q A, (∀ x, x ∈ q :: A → is_nan (distance x p) = false) →
     ∃ pre post,
       q :: A = pre ++ _findMin p (q :: A) :: post ∧
       (∀ x, x ∈ pre →
          (distance (_findMin p (q :: A)) p <? distance x p) = true) ∧
       (∀ x, x ∈ post →
          (distance (_findMin p (q :: A)) p <=? distance x p) = true)) ∧
  (∀ p x, finite_point p = true → finite_point x = true →
     is_nan (distance x p) = false) ∧
  ((sqdist_exact tie_a origin == sqdist_exact tie_b origin)%Q ∧
   _findMin origin [tie_a; tie_b] = tie_b).
Proof.
  split_and!.
  - intros p. split; [apply _findMin_nil|apply not_elem_of_nil].
  - intros p q A. by apply nearest_first_findMin.
  - intros p q A Hnan.
    by apply (nearest_first_least_first (q :: A)), nearest_first_findMin.
  - intros p x Hp Hx. by apply distance_not_nan.
  - reflexivity.
  - reflexivity.
Qed.

(** C10 as stated fails. The points [tie_a] and [tie_b] are at the same
    Euclidean distance from the origin; the computed distance of [tie_b]
    is the smaller one, so [_findMin] returns [tie_b], the later of the
    two. *)
Lemma findMin_tie_returns_later : ¬ findMin_returns_earliest_nearest.
Proof.
  intros Hclaim.
  destruct (Hclaim origin [tie_a; tie_b]) as (pre & post & Hs & Hpre & _);
    [reflexivity| |discriminate|].
  { intros q Hq. repeat (apply elem_of_cons in Hq as [->|Hq]); try reflexivity.
    by apply elem_of_nil in Hq. }
  change (_findMin origin [tie_a; tie_b]) with tie_b in Hs, Hpre.
  assert (tie_a ≠ tie_b) as Hne.
  { intros E. apply (f_equal (λ q, Prim2SF q.1)) in E. by vm_compute in E. }
  destruct pre as [|a pre]; apply cons_eq_hd in Hs; [done|]. subst a.
  specialize (Hpre tie_a ltac:(left)). by vm_compute in Hpre.
Qed.

(** Two anchors at the same computed distance: the first one is returned. *)
Example _findMin_tie : _findMin (0, 0) [(1, 0); (0, 1)] = (1, 0).
Proof. reflexivity. Qed.

(** The three anchors of the script are not at the same computed distance
    from the origin: the computed norm of the third is 1 - 2^-53, and it
    is the one returned. *)
Example _findMin_origin :
  _findMin (0, 0) threshold = (-1 / sqrt 2, -1 / sqrt 2).
Proof. reflexivity. Qed.

#[local] Set Warnings "-inexact-float".

(** The result changes with the length of the point: (1, 2) is nearest to
    the second anchor, the point of the same direction and of length about
    2e-17 to the third, all its computed distances being rounded to values
    between which the third is the least. *)
Example _findMin_scaled :
  _findMin (1, 2) threshold = (0, 1) ∧
  _findMin (1e-17, 2e-17) threshold = (-1 / sqrt 2, -1 / sqrt 2).
Proof. split; reflexivity. Qed.

(** The result of a search is not always its own nearest point: the
    square of a small difference is rounded to 0. *)
Example _findMin_twice :
  _findMin (0, 0) [(2e-162, 0); (1e-162, 0)] = (1e-162, 0) ∧
  _findMin (1e-162, 0) [(2e-162, 0); (1e-162, 0)] = (2e-162, 0).
Proof. split; reflexivity. Qed.

(** Two points of the unit square whose computed distances from a third
    differ in the last place: the second is returned. *)
Example _findMin_last_place :
  _findMin (0.44002757286227756, 0.8301952319298832)
    [(0.6884798739397499, 0.5327361392874693);
     (0.6915579563810952, 0.5353343768249446)]
  = (0.6915579563810952, 0.5353343768249446) ∧
  distance (0.6884798739397499, 0.5327361392874693)
    (0.44002757286227756, 0.8301952319298832) = 0.38756993911594734 ∧
  distance (0.6915579563810952, 0.5353343768249446)
    (0.44002757286227756, 0.8301952319298832) = 0.3875699391159473.
Proof. split_and!; reflexivity. Qed.

#[local] Set Warnings "+inexact-float".

(** C3, amended. [threshold] maps the three diagnoses 0, 1 and 2 to three
    hardcoded points: (1, 0), (0, 1) and the point whose two coordinates
    are the float of [-1/np.sqrt(2)], which is -6369051672525772 * 2^-53.
    The first two are on the unit circle. The third is not: it lies
    inside the circle, the square of its norm being less than 1 by less
    than 2^-52, and the norm numpy computes for it is 1 - 2^-53. *)
Theorem threshold_rows :
  length threshold = 3%nat ∧
  getitem threshold 0 = Ok (1, 0) ∧
  getitem threshold 1 = Ok (0, 1) ∧
  getitem threshold 2 = Ok (-1 / sqrt 2, -1 / sqrt 2) ∧
  -1 / sqrt 2 = third_anchor ∧
  (exact third_anchor == - (6369051672525772 # 1) * Qpower 2 (-53))%Q ∧
  on_unit_circle (1, 0) ∧ norm (1, 0) = 1 ∧
  on_unit_circle (0, 1) ∧ norm (0, 1) = 1 ∧
  (1 - Qpower 2 (-52) < sqnorm_exact (third_anchor, third_anchor) < 1)%Q ∧
  norm (third_anchor, third_anchor) = 0x1.fffffffffffffp-1 ∧
  (exact 0x1.fffffffffffffp-1 == 1 - Qpower 2 (-53))%Q.
Proof.
  split_and!; try reflexivity.
Qed.

(** C3 as stated fails: the third row of [threshold] is not a point of
    norm 1. *)
Lemma threshold_third_row_off_circle :
  ¬ (∀ q, q ∈ threshold → on_unit_circle q).
Proof.
  intros Hclaim.
  specialize (Hclaim (-1 / sqrt 2, -1 / sqrt 2) ltac:(right; right; left)).
  by vm_compute in Hclaim.
Qed.

End Nearest.

(** ** Python containers *)

Section Containers.
Context {A : Type} (eqb : A → A → bool).
Implicit Types (l : list A) (v : A).

Lemma getitem_valid l i : valid_index l i → ∃ a, getitem l i = Ok a ∧ a ∈ l.
Proof.
  unfold valid_index, getitem; intros Hi. cbv zeta.
  set (n := Z.of_nat (length l)) in *.
  set (i' := if decide (i < 0)%Z then (i + n)%Z else i).
  assert (0 ≤ i' < n)%Z as Hi' by (subst i'; case_decide; lia).
  rewrite decide_True by done.
  destruct (l !! Z.to_nat i') as [a|] eqn:E.
  - exists a. split; [done|]. by eapply list_elem_of_lookup_2.
  - apply lookup_ge_None in E. lia.
Qed.

Lemma getitem_Ok l i a : getitem l i = Ok a → valid_index l i ∧ a ∈ l.
Proof.
  unfold valid_index, getitem. cbv zeta.
  set (n := Z.of_nat (length l)).
  destruct (decide (i < 0)%Z); (case_decide; [|done]);
    (destruct (l !! _) as [b|] eqn:E; [|done]);
    intros [= ->]; (split; [lia|by eapply list_elem_of_lookup_2]).
Qed.

Lemma getitem_nonneg l (i : nat) a :
  getitem l (Z.of_nat i) = Ok a ↔ l !! i = Some a.
Proof.
  unfold getitem. cbv zeta.
  destruct (decide (Z.of_nat i < 0)%Z); [lia|].
  rewrite Nat2Z.id. split.
  - case_decide; [|done]. by destruct (l !! i) as [b|]; intros [= ->].
  - intros E. rewrite E. rewrite decide_True; [done|].
    apply lookup_lt_Some in E. lia.
Qed.

Lemma first_index_S a l v k :
  eqb a v = false → first_index eqb (a :: l) v (S k) ↔ first_index eqb l v k.
Proof.
  intros Ha. unfold first_index. split.
  - intros [Hk Hfirst]. split; [done|].
    intros j b Hj Hb. apply (Hfirst (S j)); [lia|done].
  - intros [Hk Hfirst]. split; [done|].
    intros [|j] b Hj Hb; cbn in Hb; [congruence|].
    apply (Hfirst j); [lia|done].
Qed.

Lemma list_index_first l v k :
  list_index eqb l v = Ok k ↔ first_index eqb l v k.
Proof.
  revert k. induction l as [|a l IH]; intros k; cbn [list_index].
  - split; [done|]. by intros [(? & ? & _) _].
  - destruct (eqb a v) eqn:Ha.
    + split.
      * intros [= <-]. split; [by exists a|]. lia.
      * intros [Hk Hfirst]. destruct k as [|k]; [done|].
        specialize (Hfirst 0%nat a ltac:(lia) eq_refl). congruence.
    + destruct k as [|k].
      * split.
        -- by destruct (list_index eqb l v).
        -- intros [(b & [= <-] & Hb) _]. congruence.
      * rewrite first_index_S by done. rewrite <- IH.
        destruct (list_index eqb l v) as [k'|e]; cbn; [|done].
        split; intros [= ->]; done.
Qed.

Lemma list_index_found l v :
  (∃ a, a ∈ l ∧ eqb a v = true) → ∃ k, list_index eqb l v = Ok k.
Proof.
  induction l as [|a l IH]; intros (b & Hb & Hbv); [by apply elem_of_nil in Hb|].
  cbn [list_index]. destruct (eqb a v) eqn:Ha; [by eexists|].
  apply elem_of_cons in Hb as [->|Hb]; [congruence|].
  destruct IH as [k ->]; [by exists b|]. by eexists.
Qed.

Lemma list_index_Raise l v e :
  list_index eqb l v = Raise e ↔ e = ValueError ∧ ∀ a, a ∈ l → eqb a v = false.
Proof.
  induction l as [|a l IH]; cbn [list_index].
  - split; [intros [= <-]|by intros [-> _]].
    split; [done|]. intros a Ha. by apply elem_of_nil in Ha.
  - destruct (eqb a v) eqn:Ha.
    + split; [done|]. intros [_ Hl]. specialize (Hl a ltac:(left)). congruence.
    + destruct (list_index eqb l v) as [k|e'] eqn:E; cbn.
      * split; [done|]. intros [-> Hl].
        assert (Ok k = Raise ValueError) as Habs; [|done].
        apply IH. split; [done|]. intros b Hb. apply Hl. by right.
      * split.
        -- intros [= <-]. destruct (proj1 IH eq_refl) as [-> Hl].
           split; [done|]. intros b [->|Hb]%elem_of_cons; [done|by apply Hl].
        -- intros [-> Hl]. apply IH. split; [done|].
           intros b Hb. apply Hl. by right.
Qed.

Lemma mapM_list_index_found l (vs : list A) :
  (∀ v, v ∈ vs → ∃ a, a ∈ l ∧ eqb a v = true) →
  ∃ ks, mapM (list_index eqb l) vs = Ok ks.
Proof.
  induction vs as [|v vs IH]; intros Hvs; [by eexists|].
  destruct (list_index_found l v) as [k Hk]; [apply Hvs; left|].
  destruct IH as [ks Hks]; [intros; apply Hvs; by right|].
  exists (k :: ks). cbn. rewrite Hk. cbn. by rewrite Hks.
Qed.

Lemma mapM_Ok_Forall2 {B C} (f : B → outcome C) (bs : list B) (cs : list C) :
  mapM f bs = Ok cs ↔ Forall2 (λ b c, f b = Ok c) bs cs.
Proof.
  revert cs. induction bs as [|b bs IH]; intros cs; cbn.
  - split; [intros [= <-]; constructor|by inversion 1].
  - destruct (f b) as [c|e] eqn:Eb; cbn.
    + destruct (mapM f bs) as [cs'|e] eqn:Ebs; cbn.
      * split.
        -- intros [= <-]. constructor; [done|]. by apply IH.
        -- inversion 1 as [|? c' ? cs'' Hc Hcs]; subst.
           apply IH in Hcs. cbv [mret outcome_ret]. congruence.
      * split; [done|]. inversion 1 as [|? c' ? cs'' Hc Hcs]; subst.
        apply IH in Hcs. congruence.
    + split; [done|]. inversion 1; congruence.
Qed.

End Containers.

(** A row without NaN is equal to itself. *)
Lemma point_eq_refl (q : point) :
  point_eq q q = true ↔ is_nan q.1 = false ∧ is_nan q.2 = false.
Proof.
  unfold point_eq, is_nan. rewrite andb_true_iff, !negb_false_iff. done.
Qed.

(** ** Inputs and targets of the model *)

Section Inputs.
Context `{Externals}.
Implicit Types (threshold : list point) (collection : list Participant).
Implicit Types (x : list (list float)) (y : list point).

Lemma test_loop_fit_loop threshold order collection x y :
  test_loop threshold order collection x y = fit_loop threshold order collection x y.
Proof.
  revert x y. induction collection as [|P rest IH]; intros x y; [done|].
  cbn. destruct (stream2sig _ _); [|done]. cbn.
  destruct (getitem _ _); [|done]. cbn. apply IH.
Qed.

Lemma fit_loop_Ok threshold order collection : ∀ x0 y0 x y,
  fit_loop threshold order collection x0 y0 = Ok (x, y) ↔
  ∃ x' y', x = x0 ++ x' ∧ y = y0 ++ y' ∧
    inputs_of order collection x' ∧ targets_of threshold collection y'.
Proof.
  induction collection as [|P rest IH]; intros x0 y0 x y; cbn.
  - split.
    + intros [= <- <-]. exists [], []. rewrite !app_nil_r.
      split_and!; try done; constructor.
    + intros (x' & y' & -> & -> & Hx & Hy).
      inversion Hx; inversion Hy; subst. by rewrite !app_nil_r.
  - destruct (stream2sig (data P) order) as [s|e] eqn:Es; cbn.
    + destruct (getitem threshold (diagnosis P)) as [t|e] eqn:Et; cbn.
      * rewrite IH. split.
        -- intros (x' & y' & -> & -> & Hx & Hy).
           exists (s :: x'), (t :: y'). rewrite <- !app_assoc.
           split_and!; try done; by constructor.
        -- intros (x' & y' & -> & -> & Hx & Hy).
           inversion Hx as [|? s' ? x'' Hs Hx']; subst.
           inversion Hy as [|? t' ? y'' Ht Hy']; subst.
           exists x'', y''. rewrite <- !app_assoc.
           assert (s' = s) as -> by congruence.
           assert (t' = t) as -> by congruence. done.
      * split; [done|]. intros (x' & y' & _ & _ & _ & Hy).
        inversion Hy; congruence.
    + split; [done|]. intros (x' & y' & _ & _ & Hx & _).
      inversion Hx; congruence.
Qed.

(** The loop raises exactly what the first failing call raises, and that
    call is either the signature or the lookup of the anchor. *)
Lemma fit_loop_Raise threshold order collection e : ∀ x0 y0,
  fit_loop threshold order collection x0 y0 = Raise e ↔
  ∃ pre P post x' y', collection = pre ++ P :: post ∧
    inputs_of order pre x' ∧ targets_of threshold pre y' ∧
    (stream2sig (data P) order = Raise e ∨
     (∃ s, stream2sig (data P) order = Ok s) ∧
       getitem threshold (diagnosis P) = Raise e).
Proof.
  induction collection as [|P rest IH]; intros x0 y0; cbn.
  - split; [done|]. intros (pre & ? & ? & ? & ? & E & _). by destruct pre.
  - destruct (stream2sig (data P) order) as [s|e'] eqn:Es; cbn.
    + destruct (getitem threshold (diagnosis P)) as [t|e'] eqn:Et; cbn.
      * rewrite IH. split.
        -- intros (pre & Q & post & x' & y' & -> & Hx & Hy & HQ).
           exists (P :: pre), Q, post, (s :: x'), (t :: y').
           split_and!; try done; by constructor.
        -- intros (pre & Q & post & x' & y' & E & Hx & Hy & HQ).
           destruct pre as [|P' pre]; injection E as <- ->.
           ++ destruct HQ as [?|[_ ?]]; congruence.
           ++ inversion Hx as [|? ? ? x'' _ Hx']; subst.
              inversion Hy as [|? ? ? y'' _ Hy']; subst.
              by exists pre, Q, post, x'', y''.
      * split.
        -- intros [= <-]. exists [], P, rest, [], [].
           split_and!; [done|constructor|constructor|right; eauto].
        -- intros (pre & Q & post & x' & y' & E & Hx & Hy & HQ).
           destruct pre as [|P' pre]; injection E as <- ->.
           ++ destruct HQ as [?|[_ ?]]; congruence.
           ++ inversion Hy; congruence.
    + split.
      * intros [= <-]. exists [], P, rest, [], [].
        split_and!; [done|constructor|constructor|by left].
      * intros (pre & Q & post & x' & y' & E & Hx & Hy & HQ).
        destruct pre as [|P' pre]; injection E as <- ->.
        -- destruct HQ as [?|[[s ?] _]]; congruence.
        -- inversion Hx; congruence.
Qed.

(** C2. [fit] and [test] build the inputs and the targets of the model in
    the order of the collection: both loops compute the same lists, both
    lists are as long as the collection, [x[i]] is the signature (of the
    given order, 2 in the script) of the data of participant [i], and
    [y[i]] is the anchor [threshold[d]] of its diagnosis [d]; the loop
    returns these lists whenever every signature and every anchor exists,
    and [fit] hands them to the regressor. *)
Theorem fit_test_inputs_targets threshold order collection :
  test_loop threshold order collection [] [] =
    fit_loop threshold order collection [] [] ∧
  (∀ x y,
     fit_loop threshold order collection [] [] = Ok (x, y) ↔
     length collection = length x ∧ length collection = length y ∧
     (∀ i P s, collection !! i = Some P → x !! i = Some s →
        stream2sig (data P) order = Ok s) ∧
     (∀ i P t, collection !! i = Some P → y !! i = Some t →
        getitem threshold (diagnosis P) = Ok t)) ∧
  (∀ x y w,
     fit_loop threshold order collection [] [] = Ok (x, y) →
     fit collection threshold order w = forest_fit 100 true x y w).
Proof.
  split_and!.
  - apply test_loop_fit_loop.
  - intros x y. rewrite fit_loop_Ok. unfold inputs_of, targets_of. split.
    + intros (x' & y' & -> & -> & Hx & Hy). cbn [app].
      apply Forall2_same_length_lookup in Hx as [Hlx Hx].
      apply Forall2_same_length_lookup in Hy as [Hly Hy].
      split_and!; eauto.
    + intros (Hlx & Hly & Hx & Hy). exists x, y.
      split_and!; try done; apply Forall2_same_length_lookup; eauto.
  - intros x y w E. unfold fit. by rewrite E.
Qed.

End Inputs.

(** ** Labels and scores of [test] *)

Section Labels.
Local Open Scope float_scope.
Implicit Types (threshold : list point) (p q : point).

Lemma nearest_first_unique threshold p q q' :
  nearest_first threshold p q → nearest_first threshold p q' → q = q'.
Proof.
  intros (pre & post & E & Hq) (pre' & post' & E' & Hq').
  destruct Hq as [[-> Hn]|(Hn & Hhd & Hpre & Hpost)],
    Hq' as [[-> Hn']|(Hn' & Hhd' & Hpre' & Hpost')].
  - cbn in E, E'. congruence.
  - destruct pre' as [|h pre']; cbn in E, E'.
    + assert (q = q') as -> by congruence. congruence.
    + assert (h = q) as -> by congruence. specialize (Hhd' q eq_refl). congruence.
  - destruct pre as [|h pre]; cbn in E, E'.
    + assert (q = q') as -> by congruence. congruence.
    + assert (h = q') as -> by congruence. specialize (Hhd q' eq_refl). congruence.
  - destruct (Nat.lt_trichotomy (length pre) (length pre')) as [Hlt|[Heq|Hgt]].
    + assert (q ∈ pre') as Hin.
      { apply list_elem_of_lookup. exists (length pre).
        assert (threshold !! length pre = Some q) as Hl
          by (rewrite E; apply list_lookup_middle; done).
        rewrite E', lookup_app_l in Hl; done. }
      assert (q' ∈ post) as Hin'.
      { assert (threshold !! length pre' = Some q') as Hl
          by (rewrite E'; apply list_lookup_middle; done).
        rewrite E, lookup_app_r in Hl by lia.
        destruct (length pre' - length pre)%nat as [|k] eqn:Ek; [lia|].
        cbn in Hl. by eapply list_elem_of_lookup_2. }
      destruct (Hpre' _ Hin) as [?|Hlt']; [congruence|].
      destruct (Hpost _ Hin') as [?|Hle]; [congruence|].
      apply leb_not_ltb in Hle. congruence.
    + rewrite E' in E. apply app_inj_1 in E as [_ [= ->]]; done.
    + assert (q' ∈ pre) as Hin'.
      { apply list_elem_of_lookup. exists (length pre').
        assert (threshold !! length pre' = Some q') as Hl
          by (rewrite E'; apply list_lookup_middle; done).
        rewrite E, lookup_app_l in Hl; done. }
      assert (q ∈ post') as Hin.
      { assert (threshold !! length pre = Some q) as Hl
          by (rewrite E; apply list_lookup_middle; done).
        rewrite E', lookup_app_r in Hl by lia.
        destruct (length pre - length pre')%nat as [|k] eqn:Ek; [lia|].
        cbn in Hl. by eapply list_elem_of_lookup_2. }
      destruct (Hpre _ Hin') as [?|Hlt']; [congruence|].
      destruct (Hpost' _ Hin) as [?|Hle]; [congruence|].
      apply leb_not_ltb in Hle. congruence.
Qed.

(** The anchor [_findMin] returns is the one [nearest_first] describes. *)
Lemma nearest_first_iff threshold p q :
  threshold ≠ [] → nearest_first threshold p q ↔ q = _findMin p threshold.
Proof.
  intros Hne. split.
  - intros Hq. eapply nearest_first_unique; [exact Hq|].
    by apply nearest_first_findMin.
  - intros ->. by apply nearest_first_findMin.
Qed.

End Labels.

Section Scores.
Context `{Externals}.
Implicit Types (threshold : list point) (collection : list Participant).

Lemma targets_elem_of threshold collection y :
  targets_of threshold collection y → ∀ v, v ∈ y → v ∈ threshold.
Proof.
  induction 1 as [|P t coll y Ht _ IH]; intros v Hv.
  - by apply elem_of_nil in Hv.
  - apply elem_of_cons in Hv as [->|Hv]; [|by apply IH].
    by apply getitem_Ok in Ht as [_ ?].
Qed.

Lemma targets_labels threshold collection y y_labels :
  targets_of threshold collection y →
  mapM (list_index point_eq threshold) y = Ok y_labels →
  Forall2 (true_label threshold) collection y_labels.
Proof.
  intros Hy Hl. apply mapM_Ok_Forall2 in Hl. revert y_labels Hl.
  induction Hy as [|P t coll y Ht _ IH]; intros y_labels Hl.
  - inversion Hl. constructor.
  - inversion Hl as [|? k ? ks Hk Hks]; subst. constructor; [|by apply IH].
    exists t. split; [done|]. by apply list_index_first.
Qed.

Lemma labels_targets threshold collection y_labels :
  Forall2 (true_label threshold) collection y_labels →
  ∃ y, targets_of threshold collection y ∧
       mapM (list_index point_eq threshold) y = Ok y_labels.
Proof.
  induction 1 as [|P k coll ks (t & Ht & Hk) _ (y & Hy & Hl)].
  - exists []. split; [constructor|done].
  - exists (t :: y). split; [by constructor|].
    apply list_index_first in Hk. cbn. rewrite Hk. cbn. by rewrite Hl.
Qed.

Lemma predicted_labels_spec threshold (raw : list point) labels :
  mapM (list_index point_eq threshold) ((λ p, _findMin p threshold) <$> raw)
    = Ok labels ↔
  Forall2 (predicted_label threshold) raw labels.
Proof.
  rewrite mapM_Ok_Forall2, Forall2_fmap_l.
  split; intros HF; (eapply Forall2_impl; [exact HF|]); intros p k; cbn.
  - intros Hk. exists (_findMin p threshold). split.
    + apply nearest_first_findMin. intros ->. done.
    + by apply list_index_first.
  - intros (q & Hq & Hk). apply list_index_first.
    assert (threshold ≠ []) as Hne
      by (destruct Hq as (pre & post & -> & _); by destruct pre).
    apply nearest_first_iff in Hq as ->; done.
Qed.

(** C9, amended. When [threshold] is not empty, no coordinate of its rows
    is NaN, and every diagnosis is a valid index into it, the lookups of
    labels in [test] do not fail: every predicted point and every target
    is a row of [threshold], both lists of labels exist, and [test] goes
    on to the two scores. *)
Theorem test_label_lookups_succeed threshold collection order reg x y predicted_raw :
  threshold ≠ [] →
  (∀ q, q ∈ threshold → is_nan q.1 = false ∧ is_nan q.2 = false) →
  (∀ P, P ∈ collection → valid_index threshold (diagnosis P)) →
  test_loop threshold order collection [] [] = Ok (x, y) →
  predict reg x = Ok predicted_raw →
  (∀ v, v ∈ (λ p, _findMin p threshold) <$> predicted_raw → v ∈ threshold) ∧
  (∀ v, v ∈ y → v ∈ threshold) ∧
  ∃ predicted_labels y_labels,
    mapM (list_index point_eq threshold)
         ((λ p, _findMin p threshold) <$> predicted_raw) = Ok predicted_labels ∧
    mapM (list_index point_eq threshold) y = Ok y_labels ∧
    test collection reg threshold order =
      (acc ← accuracy_score y_labels predicted_labels;
       roc ← roc_auc_score y_labels predicted_labels;
       Ok (acc, roc)).
Proof.
  intros Hne Hnan Hvalid Hloop Hpredict.
  assert (∀ v, v ∈ (λ p, _findMin p threshold) <$> predicted_raw → v ∈ threshold)
    as Hpred.
  { intros v (p & -> & _)%list_elem_of_fmap. by apply _findMin_elem_of. }
  assert (∀ v, v ∈ y → v ∈ threshold) as Hy.
  { rewrite test_loop_fit_loop in Hloop.
    apply fit_loop_Ok in Hloop as (x' & y' & _ & -> & _ & Hy').
    by apply targets_elem_of with collection. }
  assert (∀ vs : list point, (∀ v, v ∈ vs → v ∈ threshold) →
            ∃ ks, mapM (list_index point_eq threshold) vs = Ok ks) as Hfound.
  { intros vs Hvs. apply mapM_list_index_found. intros v Hv. exists v.
    split; [by apply Hvs|]. by apply point_eq_refl, Hnan, Hvs. }
  destruct (Hfound _ Hpred) as [pl Hpl].
  destruct (Hfound _ Hy) as [yl Hyl].
  split_and!; [done|done|]. exists pl, yl. split_and!; [done|done|].
  unfold test. rewrite Hloop. cbn. rewrite Hpredict. cbn.
  rewrite Hpl. cbn. rewrite Hyl. done.
Qed.

(** Under the same precondition the lookup of an anchor cannot fail
    either, so the loop of [test] fails only where a signature does. *)
Lemma targets_of_valid threshold collection :
  (∀ P, P ∈ collection → valid_index threshold (diagnosis P)) →
  ∃ y, targets_of threshold collection y.
Proof.
  induction collection as [|P coll IH]; intros Hvalid.
  - exists []. constructor.
  - destruct (getitem_valid threshold (diagnosis P)) as (t & Ht & _);
      [apply Hvalid; left|].
    destruct IH as [y Hy]; [intros; apply Hvalid; by right|].
    exists (t :: y). by constructor.
Qed.

(** C6, amended. [test] returns the pair (accuracy, AUC): the accuracy
    score and the ROC-AUC score of two lists of labels, where for every
    prediction of the regressor on the signatures of the collection the
    label is the index in [threshold] of the anchor nearest to it by the
    distances [_findMin] computes, which are rounded, and for every
    participant the label is the index in [threshold] of the anchor of
    its diagnosis; the true labels are the first argument of both scores.
    The anchor nearest by the computed distances is the one [_findMin]
    returns; when no computed distance is NaN, as for anchors and
    predictions with finite coordinates, it is the earliest of the anchors
    at the least computed distance. *)
Theorem test_returns_accuracy_auc threshold collection order reg acc roc :
  (test collection reg threshold order = Ok (acc, roc) ↔
   ∃ x predicted_raw predicted_labels y_labels,
     inputs_of order collection x ∧
     predict reg x = Ok predicted_raw ∧
     Forall2 (predicted_label threshold) predicted_raw predicted_labels ∧
     Forall2 (true_label threshold) collection y_labels ∧
     accuracy_score y_labels predicted_labels = Ok acc ∧
     roc_auc_score y_labels predicted_labels = Ok roc) ∧
  (∀ p q, threshold ≠ [] →
     nearest_first threshold p q ↔ q = _findMin p threshold) ∧
  (∀ p q, (∀ a, a ∈ threshold → is_nan (distance a p) = false) →
     nearest_first threshold p q ↔ least_first threshold p q) ∧
  (∀ p a, finite_point p = true → finite_point a = true →
     is_nan (distance a p) = false).
Proof.
  split_and!.
  - unfold test. split.
    + destruct (test_loop threshold order collection [] []) as [[x y]|e] eqn:Hloop;
        [cbn|done].
      rewrite test_loop_fit_loop in Hloop.
      apply fit_loop_Ok in Hloop as (x' & y' & -> & -> & Hx & Hy). cbn [app].
      destruct (predict reg x') as [raw|e] eqn:Hraw; [cbn|done].
      destruct (mapM _ (_ <$> raw)) as [pl|e] eqn:Hpl; [cbn|done].
      destruct (mapM _ y') as [yl|e] eqn:Hyl; [cbn|done].
      destruct (accuracy_score yl pl) as [a|e] eqn:Ha; [cbn|done].
      destruct (roc_auc_score yl pl) as [r|e] eqn:Hr; [cbn|done].
      intros [= <- <-]. exists x', raw, pl, yl. split_and!; try done.
      * by apply predicted_labels_spec.
      * by apply targets_labels with y'.
    + intros (x & raw & pl & yl & Hx & Hraw & Hpl & Hyl & Ha & Hr).
      apply labels_targets in Hyl as (y & Hy & Hyl).
      assert (test_loop threshold order collection [] [] = Ok (x, y)) as ->.
      { rewrite test_loop_fit_loop. apply fit_loop_Ok. by exists x, y. }
      cbn. rewrite Hraw. cbn.
      apply predicted_labels_spec in Hpl. rewrite Hpl. cbn.
      rewrite Hyl. cbn. rewrite Ha. cbn. by rewrite Hr.
  - intros p q Hne. by apply nearest_first_iff.
  - intros p q Hnan. by apply nearest_first_least_first.
  - intros p a Hp Ha. by apply distance_not_nan.
Qed.

End Scores.

(** ** The main loop *)

Section Script.
Context `{Externals}.
Implicit Types (s : state) (group : string).

(** A turn of the loop, call by call. *)
Lemma iteration_cases threshold (group1 group2 : string) s :
  iteration threshold group1 group2 s =
  match buildData 20 "../data" training (group1, group2) (world s) with
  | (Raise e, w1) => (Raise e, stopped s w1 (take 2 (block group1 group2 [] [] 0 0)))
  | (Ok (ts, os), w1) =>
      match fit ts threshold 2 w1 with
      | (Raise e, w2) => (Raise e, stopped s w2 (take 5 (block group1 group2 ts [] 0 0)))
      | (Ok reg, w2) =>
          match test os reg threshold 2 with
          | Raise e => (Raise e, stopped s w2 (take 8 (block group1 group2 ts os 0 0)))
          | Ok (accuracy, auc) =>
              (Ok (), recorded s w2 group1 group2 ts os accuracy auc)
          end
      end
  end.
Proof.
  unfold iteration, call_buildData, call_fit, call_test, set_accuracy, set_auc,
    log, emit, in_world, pure_call, assign_accuracy, assign_auc, stopped, recorded,
    mbind, M_bind.
  cbn.
  destruct (buildData _ _ _ _ _) as [[[ts os]|e] w1]; cbn;
    [|by rewrite <- !app_assoc].
  destruct (fit _ _ _ _) as [[reg|e] w2]; cbn; [|by rewrite <- !app_assoc].
  destruct (test _ _ _ _) as [[accuracy auc]|e]; cbn; by rewrite <- !app_assoc.
Qed.

Lemma M_bind_unfold {A B} (c : M A) (k : A → M B) s :
  (c ≫= k) s =
  match c s with
  | (Ok a, s') => k a s'
  | (Raise e, s') => (Raise e, s')
  end.
Proof. reflexivity. Qed.

Lemma for_each_app {A} (l1 l2 : list A) (body : A → M unit) s :
  for_each (l1 ++ l2) body s = (for_each l1 body;; for_each l2 body) s.
Proof.
  revert s. induction l1 as [|a l1 IH]; intros s; cbn [app for_each].
  - reflexivity.
  - rewrite !M_bind_unfold. destruct (body a s) as [[[]|e] s1]; [|done].
    rewrite IH. by rewrite M_bind_unfold.
Qed.

Lemma for_each_fmap {A B} (f : A → B) (l : list A) (body : B → M unit) s :
  for_each (f <$> l) body s = for_each l (body ∘ f) s.
Proof.
  revert s. induction l as [|a l IH]; intros s; cbn; [done|].
  rewrite !M_bind_unfold. destruct (body (f a) s) as [[[]|e] s1]; [|done].
  apply IH.
Qed.

Lemma for_each_concat {A B} (f : A → list B) (l : list A) (body : B → M unit) s :
  for_each (concat (f <$> l)) body s = for_each l (λ a, for_each (f a) body) s.
Proof.
  revert s. induction l as [|a l IH]; intros s; cbn; [done|].
  rewrite for_each_app, !M_bind_unfold.
  destruct (for_each (f a) body s) as [[[]|e] s1]; [|done]. apply IH.
Qed.

Lemma for_each_ext {A} (l : list A) (body1 body2 : A → M unit) s :
  (∀ a s, body1 a s = body2 a s) → for_each l body1 s = for_each l body2 s.
Proof.
  intros Hext. revert s. induction l as [|a l IH]; intros s; cbn; [done|].
  rewrite !M_bind_unfold, Hext. destruct (body2 a s) as [[[]|e] s1]; [|done].
  apply IH.
Qed.

(** The double loop of the script is one loop over [main_pairs]. *)
Lemma main_loop_run_pairs s : main_loop s = run_pairs threshold main_pairs s.
Proof.
  unfold main_loop, run_pairs, main_pairs. rewrite for_each_concat.
  apply for_each_ext. intros [i group1] s'. by rewrite for_each_fmap.
Qed.

Lemma main_pairs_eq :
  main_pairs =
    [("healthy", "bipolar"); ("healthy", "borderline"); ("bipolar", "borderline")].
Proof. reflexivity. Qed.

Lemma iteration_Ok threshold (group1 group2 : string) s s' :
  iteration threshold group1 group2 s = (Ok (), s') ↔
  ∃ ts os w1 reg w2 accuracy auc,
    buildData 20 "../data" training (group1, group2) (world s)
      = (Ok (ts, os), w1) ∧
    fit ts threshold 2 w1 = (Ok reg, w2) ∧
    test os reg threshold 2 = Ok (accuracy, auc) ∧
    s' = recorded s w2 group1 group2 ts os accuracy auc.
Proof.
  rewrite iteration_cases. split.
  - destruct (buildData _ _ _ _ _) as [[[ts os]|e] w1]; [|done].
    destruct (fit _ _ _ _) as [[reg|e] w2] eqn:Hfit; [|done].
    destruct (test _ _ _ _) as [[accuracy auc]|e] eqn:Htest; [|done].
    intros [= <-]. by exists ts, os, w1, reg, w2, accuracy, auc.
  - intros (ts & os & w1 & reg & w2 & accuracy & auc & -> & -> & -> & ->). done.
Qed.

Lemma iteration_Raise threshold (group1 group2 : string) s e s' :
  iteration threshold group1 group2 s = (Raise e, s') ↔
  failed threshold group1 group2 s e s'.
Proof.
  rewrite iteration_cases. split.
  - destruct (buildData _ _ _ _ _) as [[[ts os]|e'] w1] eqn:Hbuild.
    + destruct (fit _ _ _ _) as [[reg|e'] w2] eqn:Hfit.
      * destruct (test _ _ _ _) as [[accuracy auc]|e'] eqn:Htest; [done|].
        intros [= <- <-]. by eapply failed_test.
      * intros [= <- <-]. by eapply failed_fit.
    + intros [= <- <-]. by eapply failed_buildData.
  - intros [w1 Hb|ts os w1 w2 Hb Hf|ts os w1 reg w2 Hb Hf Ht].
    + by rewrite Hb.
    + by rewrite Hb, Hf.
    + by rewrite Hb, Hf, Ht.
Qed.

(** A run of the loop over a list of pairs: some turns ran to their end;
    either these were all, or the next one failed and nothing ran after. *)
Lemma run_pairs_spec threshold ps : ∀ s r s',
  run_pairs threshold ps s = (r, s') ↔
  ∃ ts s1, completed threshold s ts s1 ∧
    match r with
    | Ok _ => turn_pair <$> ts = ps ∧ s' = s1
    | Raise e => ∃ group1 group2 rest,
        ps = (turn_pair <$> ts) ++ (group1, group2) :: rest ∧
        failed threshold group1 group2 s1 e s'
    end.
Proof.
  unfold run_pairs. induction ps as [|[group1 group2] ps IH]; intros s r s'; cbn.
  - split.
    + intros [= <- <-]. exists [], s. split; [constructor|done].
    + intros (ts & s1 & Hc & Hr). destruct r as [[]|e].
      * destruct Hr as [Hts ->]. apply fmap_nil_inv in Hts as ->.
        by inversion Hc.
      * destruct Hr as (? & ? & ? & Hps & _). by destruct (turn_pair <$> ts).
  - rewrite M_bind_unfold.
    destruct (iteration threshold group1 group2 s) as [[[]|e] s1] eqn:Hit.
    + apply iteration_Ok in Hit
        as (ts0 & os0 & w1 & reg & w2 & accuracy & auc & Hb & Hf & Ht & ->).
      rewrite IH. split.
      * intros (ts & s2 & Hc & Hr).
        exists ({| turn_pair := (group1, group2); turn_ts := ts0; turn_os := os0;
                   turn_accuracy := accuracy; turn_auc := auc |} :: ts), s2.
        split; [by econstructor|].
        destruct r as [[]|e'].
        -- destruct Hr as [<- ->]. done.
        -- destruct Hr as (g1 & g2 & rest & -> & Hfail). by exists g1, g2, rest.
      * intros (ts & s2 & Hc & Hr).
        destruct ts as [|t ts].
        -- destruct r as [[]|e']; [by destruct Hr|].
           destruct Hr as (g1 & g2 & rest & [= <- <- <-] & Hfail).
           inversion Hc; subst. inversion Hfail; congruence.
        -- destruct t as [pair tts tos tacc tauc]; cbn in Hr.
           assert (pair = (group1, group2)) as ->.
           { destruct r as [[]|e'].
             - destruct Hr as [[= -> _] _]. done.
             - destruct Hr as (g1 & g2 & rest & [= -> _] & _). done. }
           inversion Hc as [|? ? w1' reg' w2' ? ? Hb' Hf' Ht' Hc']; subst.
           cbn [turn_pair turn_ts turn_os turn_accuracy turn_auc fst snd] in *.
           rewrite Hb in Hb'. injection Hb' as <- <- <-.
           rewrite Hf in Hf'. injection Hf' as <- <-.
           rewrite Ht in Ht'. injection Ht' as <- <-.
           exists ts, s2. split; [done|].
           destruct r as [[]|e'].
           ++ destruct Hr as [[= ->] ->]. done.
           ++ destruct Hr as (g1 & g2 & rest & [= ->] & Hfail).
              by exists g1, g2, rest.
    + apply iteration_Raise in Hit. split.
      * intros [= <- <-]. exists [], s. split; [constructor|].
        by exists group1, group2, ps.
      * intros (ts & s2 & Hc & Hr).
        destruct ts as [|t ts].
        -- inversion Hc; subst. destruct r as [[]|e']; [by destruct Hr|].
           destruct Hr as (g1 & g2 & rest & [= <- <- <-] & Hfail).
           apply iteration_Raise in Hit, Hfail. congruence.
        -- exfalso. destruct t as [pair tts tos tacc tauc]; cbn in Hr.
           assert (pair = (group1, group2)) as ->.
           { destruct r as [[]|e'].
             - destruct Hr as [[= -> _] _]. done.
             - destruct Hr as (g1 & g2 & rest & [= -> _] & _). done. }
           inversion Hc as [|? ? w1' reg' w2' ? ? Hb' Hf' Ht' Hc']; subst.
           cbn [turn_pair turn_ts turn_os turn_accuracy turn_auc fst snd] in *.
           inversion Hit; congruence.
Qed.

Lemma print_results_run s : print_results s = (Ok (), printed s).
Proof.
  unfold print_results, log_table, read_accuracy, read_auc, log, emit, printed,
    stopped, mbind, M_bind.
  cbn. by rewrite <- !app_assoc.
Qed.

Lemma completed_state threshold s ts s' :
  completed threshold s ts s' →
  trace s' = trace s ++ concat (turn_block <$> ts) ∧
  accuracy_results s' =
    foldl (λ m t, <[turn_pair t := turn_accuracy t]> m) (accuracy_results s) ts ∧
  auc_results s' =
    foldl (λ m t, <[turn_pair t := turn_auc t]> m) (auc_results s) ts.
Proof.
  induction 1 as [s|s t w1 reg w2 ts s' Hb Hf Ht Hc (IHt & IHa & IHu)].
  - by rewrite app_nil_r.
  - cbn [fmap list_fmap concat foldl]. rewrite IHt, IHa, IHu.
    destruct t as [[g1 g2] tts tos tacc tauc]; cbn. by rewrite <- app_assoc.
Qed.

(** A run of the script: the turns that ran to their end, then either the
    printing of the results or the failure of the next turn. *)
Lemma main_spec w r s' :
  main w = (r, s') ↔
  ∃ ts s1, completed threshold (initial w) ts s1 ∧
    match r with
    | Ok _ => turn_pair <$> ts = main_pairs ∧ s' = printed s1
    | Raise e => ∃ group1 group2 rest,
        main_pairs = (turn_pair <$> ts) ++ (group1, group2) :: rest ∧
        failed threshold group1 group2 s1 e s'
    end.
Proof.
  unfold main. cbv zeta. fold (initial w). rewrite M_bind_unfold.
  rewrite main_loop_run_pairs.
  destruct (run_pairs threshold main_pairs (initial w)) as [[[]|e] s1] eqn:Hrun.
  - rewrite print_results_run.
    apply run_pairs_spec in Hrun as (ts & s2 & Hc & Hts & ->). split.
    + intros [= <- <-]. by exists ts, s2.
    + intros (ts' & s2' & Hc' & Hr).
      assert (run_pairs threshold main_pairs (initial w)
                = (Ok (), s2)) as E1 by (apply run_pairs_spec; eauto).
      destruct r as [[]|e'].
      * destruct Hr as [Hts' ->].
        assert (run_pairs threshold main_pairs (initial w)
                  = (Ok (), s2')) as E2 by (apply run_pairs_spec; eauto).
        congruence.
      * assert (run_pairs threshold main_pairs (initial w)
                  = (Raise e', s')) as E2.
        { apply run_pairs_spec. exists ts', s2'. split; [done|].
          destruct Hr as (g1 & g2 & rest & Hp & Hfail). by exists g1, g2, rest. }
        congruence.
  - split.
    + intros [= <- <-]. apply run_pairs_spec in Hrun as (ts & s2 & Hc & Hr).
      by exists ts, s2.
    + intros (ts' & s2' & Hc' & Hr). destruct r as [[]|e'].
      * destruct Hr as [Hts' ->].
        assert (run_pairs threshold main_pairs (initial w)
                  = (Ok (), s2')) as E2 by (apply run_pairs_spec; eauto).
        congruence.
      * assert (run_pairs threshold main_pairs (initial w)
                  = (Raise e', s')) as E2.
        { apply run_pairs_spec. exists ts', s2'. split; [done|].
          destruct Hr as (g1 & g2 & rest & Hp & Hfail). by exists g1, g2, rest. }
        congruence.
Qed.

Lemma turns_of_main_pairs (ts : list turn) :
  turn_pair <$> ts = main_pairs →
  ∃ ts1 os1 a1 u1 ts2 os2 a2 u2 ts3 os3 a3 u3,
    ts = [ Build_turn ("healthy", "bipolar") ts1 os1 a1 u1;
           Build_turn ("healthy", "borderline") ts2 os2 a2 u2;
           Build_turn ("bipolar", "borderline") ts3 os3 a3 u3 ].
Proof.
  rewrite main_pairs_eq. intros Hts.
  destruct ts as [|[p1 ts1 os1 a1 u1] [|[p2 ts2 os2 a2 u2]
    [|[p3 ts3 os3 a3 u3] [|? ?]]]]; try done.
  cbn in Hts. injection Hts as -> -> ->.
  by exists ts1, os1, a1, u1, ts2, os2, a2, u2, ts3, os3, a3, u3.
Qed.

(** C4. The loop goes exactly once through every unordered pair of
    distinct groups among healthy, bipolar and borderline, three pairs in
    all; a run that ends has called [buildData] once per pair, in this
    order, and has assigned one accuracy and one AUC per pair, to the cell
    (group1, group2) of the two tables. *)
Theorem main_visits_each_pair_once :
  main_pairs =
    [("healthy", "bipolar"); ("healthy", "borderline"); ("bipolar", "borderline")] ∧
  (∀ a b, a ∈ diagnosis_names → b ∈ diagnosis_names → a ≠ b →
     length (filter (λ p, p = (a, b) ∨ p = (b, a)) main_pairs) = 1%nat) ∧
  (∀ w s, main w = (Ok (), s) →
     ∃ a1 u1 a2 u2 a3 u3,
       loads (trace s) = EvBuildData <$> main_pairs ∧
       records (trace s) =
         [ EvSetAccuracy "healthy" "bipolar" a1; EvSetAuc "healthy" "bipolar" u1;
           EvSetAccuracy "healthy" "borderline" a2; EvSetAuc "healthy" "borderline" u2;
           EvSetAccuracy "bipolar" "borderline" a3; EvSetAuc "bipolar" "borderline" u3 ] ∧
       accuracy_results s =
         <[("bipolar", "borderline") := a3]>
           (<[("healthy", "borderline") := a2]> (<[("healthy", "bipolar") := a1]> ∅)) ∧
       auc_results s =
         <[("bipolar", "borderline") := u3]>
           (<[("healthy", "borderline") := u2]> (<[("healthy", "bipolar") := u1]> ∅))).
Proof.
  split_and!.
  - reflexivity.
  - intros a b Ha Hb. unfold diagnosis_names in Ha, Hb.
    repeat (apply elem_of_cons in Ha as [->|Ha]);
      try (by apply elem_of_nil in Ha);
      repeat (apply elem_of_cons in Hb as [->|Hb]);
      try (by apply elem_of_nil in Hb);
      intros Hne; try done; reflexivity.
  - intros w s Hmain. apply main_spec in Hmain as (ts & s1 & Hc & Hts & ->).
    apply turns_of_main_pairs in Hts
      as (ts1 & os1 & a1 & u1 & ts2 & os2 & a2 & u2 & ts3 & os3 & a3 & u3 & ->).
    apply completed_state in Hc as (Ht & Ha & Hu).
    exists a1, u1, a2, u2, a3, u3. cbn [printed stopped trace accuracy_results auc_results].
    rewrite Ht, Ha, Hu. split_and!; reflexivity.
Qed.

Lemma block_no_print (group1 group2 : string) ts os accuracy auc :
  Forall (λ ev, is_print ev = false) (block group1 group2 ts os accuracy auc).
Proof. unfold block. repeat constructor. Qed.

Lemma turn_blocks_no_print (ts : list turn) :
  Forall (λ ev, is_print ev = false) (concat (turn_block <$> ts)).
Proof.
  apply Forall_concat, Forall_fmap, Forall_forall. intros t _.
  apply block_no_print.
Qed.

Lemma app_eq_middle {A} (l1 l2 pre post : list A) (x : A) :
  l1 ++ l2 = pre ++ x :: post → x ∉ l1 →
  ∃ pre', pre = l1 ++ pre' ∧ l2 = pre' ++ x :: post.
Proof.
  revert pre. induction l1 as [|a l1 IH]; intros pre E Hx; cbn in *.
  - by exists pre.
  - destruct pre as [|b pre]; cbn in E.
    + injection E as -> _. exfalso. apply Hx. left.
    + injection E as -> E. destruct (IH pre E) as (pre' & -> & ->).
      * intros ?. apply Hx. by right.
      * by exists pre'.
Qed.

(** C5. In every turn of the loop the operations come in one order: the
    two sets are loaded with [buildData], the regressor is fitted on the
    training set, tested on the out-of-sample set, and the two scores are
    recorded. The history of a run is the histories of the turns that ran
    to their end, one after the other, followed by the printing of the
    results when all three pairs were processed, and else by the start of
    the turn that failed; a table is printed only after the scores of
    every pair have been recorded. *)
Theorem main_order_of_operations w :
  (∃ ts s1 tail,
     completed threshold (initial w) ts s1 ∧
     trace (main w).2 = concat (turn_block <$> ts) ++ tail ∧
     match (main w).1 with
     | Ok _ => turn_pair <$> ts = main_pairs ∧ tail = results_block s1
     | Raise e => ∃ group1 group2 rest ts' os' k,
         main_pairs = (turn_pair <$> ts) ++ (group1, group2) :: rest ∧
         k ∈ [2; 5; 8]%nat ∧
         tail = take k (block group1 group2 ts' os' 0 0)
     end) ∧
  (∀ pre t post, trace (main w).2 = pre ++ EvToString t :: post →
     ∀ group1 group2, (group1, group2) ∈ main_pairs →
       ∃ accuracy auc,
         EvSetAccuracy group1 group2 accuracy ∈ pre ∧
         EvSetAuc group1 group2 auc ∈ pre).
Proof.
  destruct (main w) as [r s] eqn:Hmain. cbn [fst snd].
  apply main_spec in Hmain as (ts & s1 & Hc & Hr).
  pose proof (completed_state _ _ _ _ Hc) as (Ht & _ & _). cbn in Ht.
  destruct r as [[]|e].
  - destruct Hr as [Hts ->]. split.
    + exists ts, s1, (results_block s1). cbn. by rewrite Ht.
    + intros pre t post E group1 group2 Hpair.
      cbn in E. rewrite Ht in E.
      apply app_eq_middle in E as (pre' & -> & _).
      * apply turns_of_main_pairs in Hts
          as (ts1 & os1 & a1 & u1 & ts2 & os2 & a2 & u2 & ts3 & os3 & a3 & u3 & ->).
        rewrite main_pairs_eq in Hpair.
        repeat (apply elem_of_cons in Hpair as [[= -> ->]|Hpair]);
          [exists a1, u1|exists a2, u2|exists a3, u3|by apply elem_of_nil in Hpair];
          split; apply elem_of_app; left; cbn; set_solver.
      * intros Hin. pose proof (turn_blocks_no_print ts) as Hno.
        rewrite Forall_forall in Hno. by specialize (Hno _ Hin).
  - destruct Hr as (group1 & group2 & rest & Hps & Hfail). split.
    + inversion Hfail as [w1 Hb|ts' os' w1 w2 Hb Hf|ts' os' w1 reg w2 Hb Hf Htest];
        subst; cbn [stopped trace]; rewrite Ht.
      * exists ts, s1, (take 2 (block group1 group2 [] [] 0 0)). split_and!; try done.
        exists group1, group2, rest, [], [], 2%nat. split_and!; [done|set_solver|done].
      * exists ts, s1, (take 5 (block group1 group2 ts' [] 0 0)). split_and!; try done.
        exists group1, group2, rest, ts', [], 5%nat. split_and!; [done|set_solver|done].
      * exists ts, s1, (take 8 (block group1 group2 ts' os' 0 0)). split_and!; try done.
        exists group1, group2, rest, ts', os', 8%nat. split_and!; [done|set_solver|done].
    + intros pre t post E. exfalso.
      assert (Forall (λ ev, is_print ev = false) (trace s)) as Hno.
      { inversion Hfail; subst; cbn [stopped trace]; rewrite Ht;
          (apply Forall_app; split; [apply turn_blocks_no_print|]);
          apply Forall_take, block_no_print. }
      rewrite E, Forall_app, Forall_cons in Hno. by destruct Hno as (_ & ? & _).
Qed.

Lemma fit_Raise collection threshold order w e w' :
  fit collection threshold order w = (Raise e, w') ↔
  (fit_loop threshold order collection [] [] = Raise e ∧ w' = w) ∨
  (∃ x y, fit_loop threshold order collection [] [] = Ok (x, y) ∧
          forest_fit 100 true x y w = (Raise e, w')).
Proof.
  unfold fit.
  destruct (fit_loop threshold order collection [] []) as [[x y]|e0]; split.
  - intros Hf. right. by exists x, y.
  - intros [[? _]|(x' & y' & [= <- <-] & Hf)]; done.
  - intros [= <- <-]. by left.
  - intros [[[= <-] ->]|(x' & y' & ? & _)]; done.
Qed.

Lemma test_Raise collection reg threshold order e :
  test collection reg threshold order = Raise e ↔
  test_loop threshold order collection [] [] = Raise e ∨
  ∃ x y, test_loop threshold order collection [] [] = Ok (x, y) ∧
    (predict reg x = Raise e ∨
     ∃ predicted_raw, predict reg x = Ok predicted_raw ∧
       (mapM (list_index point_eq threshold)
             ((λ p, _findMin p threshold) <$> predicted_raw) = Raise e ∨
        ∃ predicted_labels,
          mapM (list_index point_eq threshold)
               ((λ p, _findMin p threshold) <$> predicted_raw)
            = Ok predicted_labels ∧
          (mapM (list_index point_eq threshold) y = Raise e ∨
           ∃ y_labels, mapM (list_index point_eq threshold) y = Ok y_labels ∧
             (accuracy_score y_labels predicted_labels = Raise e ∨
              ∃ acc, accuracy_score y_labels predicted_labels = Ok acc ∧
                     roc_auc_score y_labels predicted_labels = Raise e)))).
Proof.
  unfold test. split.
  - destruct (test_loop threshold order collection [] []) as [[x y]|e0] eqn:Hl;
      cbn; [|intros [= <-]; by left].
    intros Ht. right. exists x, y. split; [done|]. revert Ht.
    destruct (predict reg x) as [raw|e0] eqn:Hraw; cbn; [|intros [= <-]; by left].
    intros Ht. right. exists raw. split; [done|]. revert Ht.
    destruct (mapM _ (_ <$> raw)) as [pl|e0] eqn:Hpl; cbn;
      [|intros [= <-]; by left].
    intros Ht. right. exists pl. split; [done|]. revert Ht.
    destruct (mapM _ y) as [yl|e0] eqn:Hyl; cbn; [|intros [= <-]; by left].
    intros Ht. right. exists yl. split; [done|]. revert Ht.
    destruct (accuracy_score yl pl) as [acc|e0] eqn:Ha; cbn;
      [|intros [= <-]; by left].
    intros Ht. right. exists acc. split; [done|]. revert Ht.
    by destruct (roc_auc_score yl pl) as [roc|e0] eqn:Hr; cbn; [|intros [= <-]].
  - intros [->|(x & y & -> & Hrest)]; [done|]. cbn.
    destruct Hrest as [->|(raw & -> & Hrest)]; [done|]. cbn.
    destruct Hrest as [->|(pl & -> & Hrest)]; [done|]. cbn.
    destruct Hrest as [->|(yl & -> & Hrest)]; [done|]. cbn.
    destruct Hrest as [->|(acc & -> & ->)]; done.
Qed.

Lemma failed_frame threshold (group1 group2 : string) s e s' :
  failed threshold group1 group2 s e s' →
  accuracy_results s' = accuracy_results s ∧
  auc_results s' = auc_results s ∧
  records (trace s') = records (trace s).
Proof.
  intros Hfail. inversion Hfail; subst; cbn [stopped accuracy_results auc_results trace];
    (split_and!; [done|done|]); unfold records; rewrite filter_app;
    cbn; by rewrite app_nil_r.
Qed.

Lemma foldl_insert_lookup_ne {V} (value : turn → V) (ts : list turn)
    (m : gmap (string * string) V) (c : string * string) :
  c ∉ turn_pair <$> ts →
  foldl (λ m t, <[turn_pair t := value t]> m) m ts !! c = m !! c.
Proof.
  revert m. induction ts as [|t ts IH]; intros m Hc; cbn; [done|].
  cbn in Hc. apply not_elem_of_cons in Hc as [Hne Hc].
  rewrite IH by done. by apply lookup_insert_ne.
Qed.

Lemma main_pairs_NoDup : NoDup main_pairs.
Proof.
  apply (bool_decide_unpack _). by vm_compute.
Qed.

(** C7. Nothing between a library call and the end of the script handles
    an exception. [fit] raises what its loop or the regressor raises,
    [test] what its loop, the prediction, a lookup of a label or a score
    raises; a turn of the main loop raises what [buildData], [fit] or
    [test] raises and then leaves both tables as they were; the script
    raises what the first failing turn raises, runs no later turn, prints
    nothing, and holds no value for the pair of that turn in either table. *)
Theorem failures_propagate_uncaught :
  (∀ collection threshold order w e w',
     fit collection threshold order w = (Raise e, w') ↔
     (fit_loop threshold order collection [] [] = Raise e ∧ w' = w) ∨
     (∃ x y, fit_loop threshold order collection [] [] = Ok (x, y) ∧
             forest_fit 100 true x y w = (Raise e, w'))) ∧
  (∀ collection threshold order e,
     test_loop threshold order collection [] [] = Raise e ↔
     ∃ pre P post x y, collection = pre ++ P :: post ∧
       inputs_of order pre x ∧ targets_of threshold pre y ∧
       (stream2sig (data P) order = Raise e ∨
        (∃ sig, stream2sig (data P) order = Ok sig) ∧
          getitem threshold (diagnosis P) = Raise e)) ∧
  (∀ collection reg threshold order e x y,
     test_loop threshold order collection [] [] = Ok (x, y) →
     (predict reg x = Raise e →
        test collection reg threshold order = Raise e) ∧
     (∀ predicted_raw predicted_labels y_labels,
        predict reg x = Ok predicted_raw →
        mapM (list_index point_eq threshold)
             ((λ p, _findMin p threshold) <$> predicted_raw) = Ok predicted_labels →
        mapM (list_index point_eq threshold) y = Ok y_labels →
        (accuracy_score y_labels predicted_labels = Raise e →
           test collection reg threshold order = Raise e) ∧
        (∀ acc, accuracy_score y_labels predicted_labels = Ok acc →
           roc_auc_score y_labels predicted_labels = Raise e →
           test collection reg threshold order = Raise e))) ∧
  (∀ threshold (group1 group2 : string) s e s',
     iteration threshold group1 group2 s = (Raise e, s') ↔
     failed threshold group1 group2 s e s') ∧
  (∀ threshold (group1 group2 : string) s e s',
     iteration threshold group1 group2 s = (Raise e, s') →
     accuracy_results s' = accuracy_results s ∧
     auc_results s' = auc_results s ∧
     records (trace s') = records (trace s)) ∧
  (∀ w e s,
     main w = (Raise e, s) ↔
     ∃ ts s1 group1 group2 rest,
       completed threshold (initial w) ts s1 ∧
       main_pairs = (turn_pair <$> ts) ++ (group1, group2) :: rest ∧
       iteration threshold group1 group2 s1 = (Raise e, s)) ∧
  (∀ w e s ts s1 (group1 group2 : string) rest,
     completed threshold (initial w) ts s1 →
     main_pairs = (turn_pair <$> ts) ++ (group1, group2) :: rest →
     iteration threshold group1 group2 s1 = (Raise e, s) →
     accuracy_results s !! (group1, group2) = None ∧
     auc_results s !! (group1, group2) = None ∧
     (∀ p, p ∈ rest →
        accuracy_results s !! p = None ∧ auc_results s !! p = None) ∧
     Forall (λ ev, is_print ev = false) (trace s)).
Proof.
  split_and!.
  - intros. apply fit_Raise.
  - intros. rewrite test_loop_fit_loop. apply fit_loop_Raise.
  - intros collection reg threshold order e x y Hloop. split.
    + intros Hp. apply test_Raise. right. exists x, y. split; [done|]. by left.
    + intros raw pl yl Hraw Hpl Hyl. split.
      * intros Ha. apply test_Raise. right. exists x, y. split; [done|].
        right. exists raw. split; [done|]. right. exists pl. split; [done|].
        right. exists yl. split; [done|]. by left.
      * intros acc Ha Hr. apply test_Raise. right. exists x, y. split; [done|].
        right. exists raw. split; [done|]. right. exists pl. split; [done|].
        right. exists yl. split; [done|]. right. by exists acc.
  - intros. apply iteration_Raise.
  - intros threshold group1 group2 s e s' Hit.
    apply iteration_Raise in Hit. by eapply failed_frame.
  - intros w e s. rewrite main_spec. split.
    + intros (ts & s1 & Hc & group1 & group2 & rest & Hps & Hfail).
      exists ts, s1, group1, group2, rest. by rewrite iteration_Raise.
    + intros (ts & s1 & group1 & group2 & rest & Hc & Hps & Hit).
      exists ts, s1. split; [done|]. exists group1, group2, rest.
      by rewrite <- iteration_Raise.
  - intros w e s ts s1 group1 group2 rest Hc Hps Hit.
    apply iteration_Raise in Hit.
    pose proof (failed_frame _ _ _ _ _ _ Hit) as (Ha & Hu & _).
    pose proof (completed_state _ _ _ _ Hc) as (Ht & Ha1 & Hu1).
    pose proof main_pairs_NoDup as Hnd. rewrite Hps in Hnd.
    apply NoDup_app in Hnd as (_ & Hdisj & Hnd2).
    apply NoDup_cons in Hnd2 as [Hnotin _].
    assert (∀ p, p ∈ (group1, group2) :: rest →
              accuracy_results s !! p = None ∧ auc_results s !! p = None) as Hnone.
    { intros p Hp. rewrite Ha, Hu, Ha1, Hu1.
      rewrite !foldl_insert_lookup_ne by (intros Hin; by apply (Hdisj p)).
      done. }
    split_and!.
    + apply Hnone. left.
    + apply Hnone. left.
    + intros p Hp. apply Hnone. by right.
    + inversion Hit; subst; cbn [stopped trace]; rewrite Ht;
        (apply Forall_app; split; [apply turn_blocks_no_print|]);
        apply Forall_take, block_no_print.
Qed.

(** The cells a turn leaves alone. *)
Lemma iteration_effect threshold (group1 group2 : string) s :
  ∀ c, c ≠ (group1, group2) →
    accuracy_results (iteration threshold group1 group2 s).2 !! c
      = accuracy_results s !! c ∧
    auc_results (iteration threshold group1 group2 s).2 !! c
      = auc_results s !! c.
Proof.
  rewrite iteration_cases.
  destruct (buildData _ _ _ _ _) as [[[ts os]|e] w1]; [|done].
  destruct (fit _ _ _ _) as [[reg|e] w2]; [|done].
  destruct (test _ _ _ _) as [[accuracy auc]|e]; [|done].
  intros c Hc. cbn. by rewrite !lookup_insert_ne.
Qed.

(** What a turn does is decided by the state of the libraries alone: from
    two states that agree on it, whatever the tables and the history
    hold, the turn ends the same way, leaves the libraries in the same
    state, adds the same events and writes the same values. *)
Lemma iteration_reads_world_only threshold (group1 group2 : string) s1 s2 :
  world s1 = world s2 →
  (iteration threshold group1 group2 s1).1 = (iteration threshold group1 group2 s2).1 ∧
  world (iteration threshold group1 group2 s1).2
    = world (iteration threshold group1 group2 s2).2 ∧
  (∃ evs,
     trace (iteration threshold group1 group2 s1).2 = trace s1 ++ evs ∧
     trace (iteration threshold group1 group2 s2).2 = trace s2 ++ evs) ∧
  accuracy_results (iteration threshold group1 group2 s1).2 !! (group1, group2)
    = (if (iteration threshold group1 group2 s1).1 is Ok _
       then accuracy_results (iteration threshold group1 group2 s2).2 !! (group1, group2)
       else accuracy_results s1 !! (group1, group2)) ∧
  auc_results (iteration threshold group1 group2 s1).2 !! (group1, group2)
    = (if (iteration threshold group1 group2 s1).1 is Ok _
       then auc_results (iteration threshold group1 group2 s2).2 !! (group1, group2)
       else auc_results s1 !! (group1, group2)).
Proof.
  intros Hw. rewrite !iteration_cases, Hw.
  destruct (buildData _ _ _ _ _) as [[[ts os]|e] w1];
    [|by split_and!; [| |eexists|..]].
  destruct (fit _ _ _ _) as [[reg|e] w2];
    [|by split_and!; [| |eexists|..]].
  destruct (test _ _ _ _) as [[accuracy auc]|e];
    [|by split_and!; [| |eexists|..]].
  split_and!; [done|done|by eexists|..]; cbn; by rewrite !lookup_insert_eq.
Qed.

(** C8, amended. A turn of the loop for the pair (group1, group2) leaves
    every other cell of the accuracy table and of the AUC table as it was.
    The tables are not all that passes from one turn to the next: so does
    the state of the libraries the turn calls, the seeded random
    generators among it, which a turn reads and may change. What a turn
    does depends on that state alone, not on what the tables hold: from
    two states with the same state of the libraries it ends the same way,
    leaves the libraries in the same state, and writes the same scores to
    its two cells. *)
Theorem iteration_frame threshold (group1 group2 : string) s :
  (∀ c, c ≠ (group1, group2) →
     accuracy_results (iteration threshold group1 group2 s).2 !! c
       = accuracy_results s !! c ∧
     auc_results (iteration threshold group1 group2 s).2 !! c
       = auc_results s !! c) ∧
  (∀ s2, world s2 = world s →
     (iteration threshold group1 group2 s2).1
       = (iteration threshold group1 group2 s).1 ∧
     world (iteration threshold group1 group2 s2).2
       = world (iteration threshold group1 group2 s).2 ∧
     ((iteration threshold group1 group2 s).1 = Ok () →
      accuracy_results (iteration threshold group1 group2 s2).2 !! (group1, group2)
        = accuracy_results (iteration threshold group1 group2 s).2 !! (group1, group2) ∧
      auc_results (iteration threshold group1 group2 s2).2 !! (group1, group2)
        = auc_results (iteration threshold group1 group2 s).2 !! (group1, group2))).
Proof.
  split; [apply iteration_effect|].
  intros s2 Hw.
  destruct (iteration_reads_world_only threshold group1 group2 s2 s Hw)
    as (Hr & Hw' & _ & Ha & Hu).
  split_and!; [done|done|]. intros Hok. rewrite Hr, Hok in Ha, Hu. done.
Qed.

End Script.

(** ** Runs on the small library *)

Section Toy.
Local Open Scope float_scope.

Example toy_main : main (H := toy complete) () = (Ok (), toy_final).
Proof. vm_compute. reflexivity. Qed.

Example toy_main_missing :
  main (H := toy no_healthy_borderline) ()
    = (Raise (LibraryError "IOError"), toy_stopped).
Proof. vm_compute. reflexivity. Qed.

Lemma toy_test_healthy_bipolar (missing : string * string → bool) :
  test (H := toy missing) (toy_os "healthy" "bipolar") () threshold 2
    = Ok (agreement [0; 1]%nat [0; 0]%nat, 0.5).
Proof. reflexivity. Qed.

Lemma threshold_no_nan q :
  q ∈ threshold → is_nan q.1 = false ∧ is_nan q.2 = false.
Proof.
  unfold threshold. intros Hq.
  repeat (apply elem_of_cons in Hq as [->|Hq]); try (by split).
  by apply elem_of_nil in Hq.
Qed.

(** C9 on the out-of-sample set of the pair (healthy, borderline) of the
    small library. *)
Lemma test_label_lookups_succeed_witness :
  (threshold ≠ [] ∧
   (∀ q, q ∈ threshold → is_nan q.1 = false ∧ is_nan q.2 = false) ∧
   (∀ P, P ∈ toy_os "healthy" "borderline" →
      valid_index threshold (diagnosis P)) ∧
   test_loop (H := toy complete) threshold 2 (toy_os "healthy" "borderline") [] []
     = Ok ([[0; 0; 1; 2]; [0; 0; 1; 2]], [(1, 0); (-1 / sqrt 2, -1 / sqrt 2)]) ∧
   predict (Externals := toy complete) () [[0; 0; 1; 2]; [0; 0; 1; 2]]
     = Ok [(1, 0); (1, 0)]) ∧
  ((∀ v, v ∈ (λ p, _findMin p threshold) <$> [(1, 0); (1, 0)] → v ∈ threshold) ∧
   (∀ v, v ∈ [(1, 0); (-1 / sqrt 2, -1 / sqrt 2)] → v ∈ threshold) ∧
   ∃ predicted_labels y_labels,
     mapM (list_index point_eq threshold)
          ((λ p, _findMin p threshold) <$> [(1, 0); (1, 0)])
       = Ok predicted_labels ∧
     mapM (list_index point_eq threshold) [(1, 0); (-1 / sqrt 2, -1 / sqrt 2)]
       = Ok y_labels ∧
     test (H := toy complete) (toy_os "healthy" "borderline") () threshold 2 =
       (acc ← accuracy_score (Externals := toy complete) y_labels predicted_labels;
        roc ← roc_auc_score (Externals := toy complete) y_labels predicted_labels;
        Ok (acc, roc))).
Proof.
  assert (∀ P, P ∈ toy_os "healthy" "borderline" →
            valid_index threshold (diagnosis P)) as Hvalid.
  { intros P HP. unfold toy_os in HP.
    apply elem_of_cons in HP as [->|HP];
      [|apply list_elem_of_singleton in HP as ->];
      by vm_compute. }
  split;
    [split_and!; [discriminate|exact threshold_no_nan|exact Hvalid
                 |reflexivity|reflexivity]|].
  apply (test_label_lookups_succeed (H := toy complete) threshold
           (toy_os "healthy" "borderline") 2 ()
           [[0; 0; 1; 2]; [0; 0; 1; 2]] [(1, 0); (-1 / sqrt 2, -1 / sqrt 2)]
           [(1, 0); (1, 0)]);
    [discriminate|exact threshold_no_nan|exact Hvalid|reflexivity|reflexivity].
Defined.

(** C9 as stated fails. With the one anchor (NaN, 0) and one participant
    of diagnosis 0, [threshold] is not empty and the diagnosis is a valid
    index, yet the anchor is not equal to itself and [index] raises
    [ValueError]. *)
Lemma label_lookup_fails_on_nan_row :
  ¬ label_lookups_never_fail (H := toy complete).
Proof.
  intros Hclaim.
  destruct (Hclaim [(nan, 0)] [toy_participant 1 0] 2%nat ()
              [[0; 0; 1; 2]] [(nan, 0)] [(1, 0)])
    as (pl & yl & Hpl & _); [discriminate| |reflexivity|reflexivity|].
  - intros P ->%list_elem_of_singleton. by vm_compute.
  - by vm_compute in Hpl.
Qed.

(** C4 on the full run of the small library. *)
Lemma main_visits_each_pair_once_witness :
  main (H := toy complete) () = (Ok (), toy_final) ∧
  ∃ a1 u1 a2 u2 a3 u3,
    loads (trace toy_final) = EvBuildData <$> main_pairs ∧
    records (trace toy_final) =
      [ EvSetAccuracy "healthy" "bipolar" a1; EvSetAuc "healthy" "bipolar" u1;
        EvSetAccuracy "healthy" "borderline" a2; EvSetAuc "healthy" "borderline" u2;
        EvSetAccuracy "bipolar" "borderline" a3; EvSetAuc "bipolar" "borderline" u3 ] ∧
    accuracy_results toy_final =
      <[("bipolar", "borderline") := a3]>
        (<[("healthy", "borderline") := a2]> (<[("healthy", "bipolar") := a1]> ∅)) ∧
    auc_results toy_final =
      <[("bipolar", "borderline") := u3]>
        (<[("healthy", "borderline") := u2]> (<[("healthy", "bipolar") := u1]> ∅)).
Proof.
  split; [exact toy_main|].
  exact (proj2 (proj2 (main_visits_each_pair_once (H := toy complete)))
           () toy_final toy_main).
Defined.

(** The first turn of the run without the files of (healthy, borderline). *)
Lemma toy_completed_first_turn :
  completed (H := toy no_healthy_borderline) threshold
    (initial (H := toy no_healthy_borderline) ())
    [ Build_turn ("healthy", "bipolar") (toy_ts "healthy" "bipolar")
        (toy_os "healthy" "bipolar") (agreement [0; 1]%nat [0; 0]%nat) 0.5 ]
    (recorded (initial (H := toy no_healthy_borderline) ()) () "healthy" "bipolar"
       (toy_ts "healthy" "bipolar") (toy_os "healthy" "bipolar")
       (agreement [0; 1]%nat [0; 0]%nat) 0.5).
Proof.
  eapply completed_cons with (w1 := ()) (reg := ()) (w2 := ()).
  - reflexivity.
  - reflexivity.
  - apply toy_test_healthy_bipolar.
  - apply completed_nil.
Qed.

Lemma toy_second_turn_missing :
  iteration (H := toy no_healthy_borderline) threshold "healthy" "borderline"
    (recorded (initial (H := toy no_healthy_borderline) ()) () "healthy" "bipolar"
       (toy_ts "healthy" "bipolar") (toy_os "healthy" "bipolar")
       (agreement [0; 1]%nat [0; 0]%nat) 0.5)
  = (Raise (LibraryError "IOError"), toy_stopped).
Proof. vm_compute. reflexivity. Qed.

(** C7 on the run of the small library without the files of the pair
    (healthy, borderline): the exception of the loader ends the script,
    the cell of that pair and of the later pair hold nothing, and nothing
    is printed. *)
Lemma failures_propagate_uncaught_witness :
  main (H := toy no_healthy_borderline) ()
    = (Raise (LibraryError "IOError"), toy_stopped) ∧
  accuracy_results toy_stopped !! ("healthy", "borderline") = None ∧
  auc_results toy_stopped !! ("healthy", "borderline") = None ∧
  (∀ p, p ∈ [("bipolar", "borderline")] →
     accuracy_results toy_stopped !! p = None ∧
     auc_results toy_stopped !! p = None) ∧
  Forall (λ ev, is_print ev = false) (trace toy_stopped).
Proof.
  split; [exact toy_main_missing|].
  exact (proj2 (proj2 (proj2 (proj2 (proj2 (proj2
           (failures_propagate_uncaught (H := toy no_healthy_borderline)))))))
           () (LibraryError "IOError") toy_stopped _ _
           "healthy" "borderline" [("bipolar", "borderline")]
           toy_completed_first_turn eq_refl toy_second_turn_missing).
Defined.

(** C8 as stated fails. On the library with a random generator the first
    turn of the script leaves the generator in another state than the one
    it found: the next turn starts from what this one left. *)
Lemma iteration_moves_the_generator :
  ¬ touches_only_its_cell (H := seeded) threshold "healthy" "bipolar"
      (initial (H := seeded) 0%Z).
Proof.
  intros [_ Hw]. vm_compute in Hw. discriminate Hw.
Qed.

(** The first two turns on that library fit their forests from different
    states of the generator. *)
Example seeded_turns_differ :
  world (H := seeded)
    (iteration (H := seeded) threshold "healthy" "bipolar"
       (initial (H := seeded) 0%Z)).2 = 83043%Z ∧
  world (H := seeded) (initial (H := seeded) 0%Z) = 83042%Z.
Proof. split; vm_compute; reflexivity. Qed.

(** With the anchors (0, 1) and (0, 0), the anchor at the least Euclidean
    distance from (1e20, 0) is the second one. *)
Lemma far_nearest_label k :
  nearest_label [(0, 1); (0, 0)] (1e20, 0) k → k = 1%nat.
Proof.
  intros (q & [Hq Hle] & Hk). apply list_index_first in Hk.
  repeat (apply elem_of_cons in Hq as [->|Hq]).
  - specialize (Hle (0, 0) ltac:(right; left)).
    vm_compute in Hle. by destruct Hle.
  - vm_compute in Hk. congruence.
  - by apply elem_of_nil in Hq.
Qed.

Lemma far_true_label id (d : nat) k :
  true_label [(0, 1); (0, 0)] (toy_participant id (Z.of_nat d)) k → k = d.
Proof.
  intros (t & Ht & Hk). apply list_index_first in Hk.
  apply getitem_nonneg in Ht.
  destruct d as [|[|d]]; cbn in Ht; [| |done];
    injection Ht as <-; vm_compute in Hk; congruence.
Qed.

(** C6 as stated fails. Take the anchors (0, 1) and (0, 0), three
    participants of diagnoses 0, 1 and 1, and a regressor that answers
    (1e20, 0) for each. The anchor at the least Euclidean distance from
    the prediction is (0, 0), of label 1, so the scores of the claim are
    those of the labels 0, 1, 1 against 1, 1, 1, an accuracy of 2/3;
    [_findMin] returns (0, 1), both computed distances being 1e20, and
    [test] scores 0, 1, 1 against 0, 0, 0: it returns the accuracy 1/3. *)
Lemma test_scores_not_nearest : ¬ scores_of_nearest_anchors (H := toy_far).
Proof.
  intros Hclaim.
  destruct (Hclaim [(0, 1); (0, 0)]
              [toy_participant 1 0; toy_participant 2 1; toy_participant 3 1]
              2%nat () (agreement [0; 1; 1]%nat [0; 0; 0]%nat) 0.5)
    as (x & raw & pl & yl & Hx & Hraw & Hpl & Hyl & Ha & _).
  - intros q Hq. repeat (apply elem_of_cons in Hq as [->|Hq]); try reflexivity.
    by apply elem_of_nil in Hq.
  - intros x raw p [= <-] (? & -> & _)%list_elem_of_fmap. reflexivity.
  - reflexivity.
  - repeat (apply Forall2_cons_inv_l in Hx as (? & ? & _ & Hx & ->)).
    apply Forall2_nil_inv_l in Hx as ->.
    assert (raw = [(1e20, 0); (1e20, 0); (1e20, 0)]) as ->
      by (cbn in Hraw; congruence).
    apply Forall2_cons_inv_l in Hpl as (k1 & ? & ->%far_nearest_label & Hpl & ->).
    apply Forall2_cons_inv_l in Hpl as (k2 & ? & ->%far_nearest_label & Hpl & ->).
    apply Forall2_cons_inv_l in Hpl as (k3 & ? & ->%far_nearest_label & Hpl & ->).
    apply Forall2_nil_inv_l in Hpl as ->.
    apply Forall2_cons_inv_l in Hyl as (l1 & ? & ->%(far_true_label _ 0) & Hyl & ->).
    apply Forall2_cons_inv_l in Hyl as (l2 & ? & ->%(far_true_label _ 1) & Hyl & ->).
    apply Forall2_cons_inv_l in Hyl as (l3 & ? & ->%(far_true_label _ 1) & Hyl & ->).
    apply Forall2_nil_inv_l in Hyl as ->.
    apply (f_equal (λ o, if o is Ok a then Prim2SF a else S754_nan)) in Ha.
    by vm_compute in Ha.
Qed.

(** What [test] returns on that input. *)
Example toy_far_test :
  test (H := toy_far)
    [toy_participant 1 0; toy_participant 2 1; toy_participant 3 1] ()
    [(0, 1); (0, 0)] 2
  = Ok (float_of_nat 1 / float_of_nat 3, 0.5) ∧
  _findMin (1e20, 0) [(0, 1); (0, 0)] = (0, 1) ∧
  distance (0, 1) (1e20, 0) = 1e20 ∧ distance (0, 0) (1e20, 0) = 1e20.
Proof. split_and!; reflexivity. Qed.

End Toy.

(** * Further properties *)

(** ** The nearest anchor under changes of the list *)

Section NearestAlgebra.
Local Open Scope float_scope.
Implicit Types (p q r : point) (A B : list point).

(** The state of the loop after a first point [q] and the points of [A]. *)
Lemma _findMin_fold_state p q A :
  foldl (_findMin_step p) (distance q p, q) A
    = (distance (_findMin p (q :: A)) p, _findMin p (q :: A)).
Proof.
  rewrite _findMin_cons_fold.
  destruct (is_nan (distance q p)) eqn:Hq.
  - by rewrite foldl_step_nan.
  - by destruct (foldl_step_first_min p A q Hq) as (r & pre & post & -> & _).
Qed.

(** X2. The search goes through a concatenation part by part: for a
    non-empty [A], the result on [A ++ B] is the result on the list made
    of the result on [A] followed by [B], and the points of [B] never make
    the computed distance of the result larger. *)
Theorem findMin_app p A B :
  A ≠ [] →
  _findMin p (A ++ B) = _findMin p (_findMin p A :: B) ∧
  (distance (_findMin p A) p <? distance (_findMin p (A ++ B)) p) = false.
Proof.
  intros HA. destruct A as [|a A]; [done|]. split.
  - cbn [app]. rewrite !_findMin_cons_fold.
    by rewrite foldl_app, _findMin_fold_state.
  - apply _findMin_not_lt. apply elem_of_app. left. by apply _findMin_elem_of.
Qed.

Lemma findMin_app_witness :
  [(3, 0)] ≠ ([] : list point) ∧
  (_findMin (0, 0) ([(3, 0)] ++ [(0, 1)])
     = _findMin (0, 0) (_findMin (0, 0) [(3, 0)] :: [(0, 1)]) ∧
   (distance (_findMin (0, 0) [(3, 0)]) (0, 0)
      <? distance (_findMin (0, 0) ([(3, 0)] ++ [(0, 1)])) (0, 0)) = false).
Proof.
  split; [discriminate|].
  apply (findMin_app (0, 0) [(3, 0)] [(0, 1)]). discriminate.
Defined.

(** X3. The order of the points matters for ties only: when no computed
    distance is NaN, two non-empty lists with the same points in another
    order give results at the same computed distance from [p], and the
    same result when no two points of the list are at the same computed
    distance from [p]. *)
Theorem findMin_permutation p A B :
  A ≡ₚ B →
  A ≠ [] →
  (∀ q, q ∈ A → is_nan (distance q p) = false) →
  (distance (_findMin p A) p =? distance (_findMin p B) p) = true ∧
  ((∀ x y, x ∈ A → y ∈ A → (distance x p =? distance y p) = true → x = y) →
   _findMin p A = _findMin p B).
Proof.
  intros HAB HA Hnan.
  assert (B ≠ []) as HB by (intros ->; by apply Permutation_nil_r in HAB).
  assert (∀ q, q ∈ B → is_nan (distance q p) = false) as Hnan'
    by (intros q Hq; apply Hnan; by rewrite HAB).
  assert (_findMin p A ∈ B) as H1
    by (rewrite <- HAB; by apply _findMin_elem_of).
  assert (_findMin p B ∈ A) as H2
    by (rewrite HAB; by apply _findMin_elem_of).
  assert ((distance (_findMin p A) p =? distance (_findMin p B) p) = true) as E.
  { apply leb_antisym; by apply _findMin_le. }
  split; [done|]. intros Hinj. apply Hinj; [|done|done].
  by apply _findMin_elem_of.
Qed.

(** X3 on two points at the distances 3 and 1 from the origin: in both
    orders the second one is returned. *)
Lemma findMin_permutation_witness :
  ([(3, 0); (0, 1)] ≡ₚ [(0, 1); (3, 0)] ∧
   [(3, 0); (0, 1)] ≠ ([] : list point) ∧
   (∀ q, q ∈ [(3, 0); (0, 1)] → is_nan (distance q origin) = false) ∧
   (∀ x y, x ∈ [(3, 0); (0, 1)] → y ∈ [(3, 0); (0, 1)] →
      (distance x origin =? distance y origin) = true → x = y)) ∧
  ((distance (_findMin origin [(3, 0); (0, 1)]) origin
      =? distance (_findMin origin [(0, 1); (3, 0)]) origin) = true ∧
   _findMin origin [(3, 0); (0, 1)] = _findMin origin [(0, 1); (3, 0)] ∧
   _findMin origin [(3, 0); (0, 1)] = (0, 1)).
Proof.
  assert (∀ q, q ∈ [(3, 0); (0, 1)] → is_nan (distance q origin) = false)
    as Hnan.
  { intros q Hq. repeat (apply elem_of_cons in Hq as [->|Hq]); try reflexivity.
    by apply elem_of_nil in Hq. }
  assert (∀ x y, x ∈ [(3, 0); (0, 1)] → y ∈ [(3, 0); (0, 1)] →
            (distance x origin =? distance y origin) = true → x = y) as Hinj.
  { intros x y Hx Hy.
    repeat (apply elem_of_cons in Hx as [->|Hx]);
      try (by apply elem_of_nil in Hx);
      repeat (apply elem_of_cons in Hy as [->|Hy]);
      try (by apply elem_of_nil in Hy);
      try done; vm_compute; done. }
  split; [split_and!; [apply perm_swap|discriminate|exact Hnan|exact Hinj]|].
  destruct (findMin_permutation origin [(3, 0); (0, 1)] [(0, 1); (3, 0)]
              (perm_swap _ _ _) ltac:(discriminate) Hnan) as [He Hsame].
  split_and!; [exact He|exact (Hsame Hinj)|reflexivity].
Defined.

(** A point strictly nearest to [p] is what the search returns. *)
Lemma _findMin_strictly_nearest p A t :
  strictly_nearest A p t → _findMin p A = t.
Proof.
  intros [Ht Hstrict].
  destruct (decide (_findMin p A = t)) as [|Hne]; [done|]. exfalso.
  assert (A ≠ []) as HA by (intros ->; by apply elem_of_nil in Ht).
  pose proof (_findMin_not_lt p A t Ht) as Hnot.
  pose proof (Hstrict _ (_findMin_elem_of p A HA) Hne). congruence.
Qed.

End NearestAlgebra.

(** ** Labels, bounds and failures of [fit] and [test] *)

Section ModelEdges.
Context `{Externals}.
Implicit Types (threshold : list point) (collection : list Participant).
Implicit Types (x : list (list float)) (y : list point).

Lemma getitem_invalid {A} (l : list A) i :
  ¬ valid_index l i → getitem l i = Raise IndexError.
Proof.
  intros Hi. destruct (getitem l i) as [a|e] eqn:E.
  - by apply getitem_Ok in E as [? _].
  - revert E. unfold getitem. cbv zeta.
    case_decide; [|by intros [= <-]].
    by destruct (l !! _); [|intros [= <-]].
Qed.

(** A valid index reaches the position [i mod len(l)]. *)
Lemma getitem_lookup_mod {A} (l : list A) i a :
  getitem l i = Ok a →
  l !! Z.to_nat (i `mod` Z.of_nat (length l)) = Some a.
Proof.
  unfold getitem. cbv zeta.
  destruct (decide (i < 0)%Z) as [Hneg|Hpos];
    (case_decide as Hi; [|done]);
    (destruct (l !! _) as [b|] eqn:E; [|done]); intros [= ->].
  - rewrite <- (Z_mod_plus_full i 1), Z.mod_small by lia.
    by rewrite Z.mul_1_l.
  - by rewrite Z.mod_small by lia.
Qed.

Lemma list_index_distinct (l : list point) k v :
  distinct_rows l → l !! k = Some v → list_index point_eq l v = Ok k.
Proof.
  intros Hd Hk. apply list_index_first. split.
  - exists v. split; [done|]. by apply (Hd k k).
  - intros j a Hj Ha. destruct (point_eq a v) eqn:E; [|done].
    apply (Hd j k a v Ha Hk) in E. lia.
Qed.

Lemma mapM_list_index_bound {A} (eqb : A → A → bool) (l vs : list A) ks :
  mapM (list_index eqb l) vs = Ok ks →
  length ks = length vs ∧ Forall (λ k, (k < length l)%nat) ks.
Proof.
  intros HF%mapM_Ok_Forall2. induction HF as [|v k vs ks Hk _ [IHl IHb]].
  - by split.
  - split; [cbn; by rewrite IHl|]. constructor; [|done].
    apply list_index_first in Hk as [(a & Hk & _) _]. by eapply lookup_lt_Some.
Qed.

Lemma inputs_of_total order collection :
  (∀ Q, Q ∈ collection → ∃ sg, stream2sig (data Q) order = Ok sg) →
  ∃ x, inputs_of order collection x.
Proof.
  induction collection as [|Q coll IH]; intros Hsig.
  - exists []. constructor.
  - destruct (Hsig Q) as [sg Hsg]; [left|].
    destruct IH as [x Hx]; [intros; apply Hsig; by right|].
    exists (sg :: x). by constructor.
Qed.

(** X5. When the rows of [threshold] are pairwise different and each is
    equal to itself, for the equality [==] of [index], the true labels
    [test] computes are the diagnoses themselves, read as indices: the
    label of a participant of diagnosis [d] is [d mod len(threshold)],
    which is [d] for a diagnosis that is not negative. *)
Theorem test_true_labels_are_diagnoses threshold order collection x y :
  distinct_rows threshold →
  test_loop threshold order collection [] [] = Ok (x, y) →
  mapM (list_index point_eq threshold) y
    = Ok ((λ P, Z.to_nat (diagnosis P `mod` Z.of_nat (length threshold)))
            <$> collection) ∧
  ((∀ P, P ∈ collection → (0 ≤ diagnosis P)%Z) →
   mapM (list_index point_eq threshold) y
     = Ok ((λ P, Z.to_nat (diagnosis P)) <$> collection)).
Proof.
  intros Hnd Hloop. rewrite test_loop_fit_loop in Hloop.
  apply fit_loop_Ok in Hloop as (x' & y' & _ & -> & _ & Hy). cbn [app].
  assert (mapM (list_index point_eq threshold) y'
            = Ok ((λ P, Z.to_nat (diagnosis P `mod` Z.of_nat (length threshold)))
                    <$> collection)) as Hlabels.
  { induction Hy as [|P t coll y Ht _ IH]; [done|].
    cbn. rewrite (list_index_distinct threshold _ t Hnd (getitem_lookup_mod _ _ _ Ht)).
    cbn. by rewrite IH. }
  split; [done|]. intros Hpos. rewrite Hlabels. f_equal.
  apply list_fmap_ext. intros i P HP.
  pose proof (Forall2_lookup_l _ _ _ _ _ Hy HP) as (t & _ & Ht).
  apply getitem_Ok in Ht as [[_ Hlt] _]. specialize (Hpos P (list_elem_of_lookup_2 _ _ _ HP)).
  by rewrite Z.mod_small by lia.
Qed.

(** X6. A diagnosis outside [-len(threshold) .. len(threshold) - 1] stops
    both [fit] and [test] with [IndexError] at the first participant that
    has one, when the signatures up to that participant exist: [fit] does
    not reach the regressor and leaves the state of the libraries as it
    was, and [test] asks for no prediction. *)
Theorem diagnosis_out_of_range_raises threshold order pre P post reg w :
  (∀ Q, Q ∈ pre ++ [P] → ∃ sg, stream2sig (data Q) order = Ok sg) →
  (∀ Q, Q ∈ pre → valid_index threshold (diagnosis Q)) →
  ¬ valid_index threshold (diagnosis P) →
  fit (pre ++ P :: post) threshold order w = (Raise IndexError, w) ∧
  test (pre ++ P :: post) reg threshold order = Raise IndexError.
Proof.
  intros Hsig Hvalid HP.
  assert (fit_loop threshold order (pre ++ P :: post) [] [] = Raise IndexError)
    as Hloop.
  { apply fit_loop_Raise.
    destruct (inputs_of_total order pre) as [x Hx];
      [intros Q HQ; apply Hsig, elem_of_app; by left|].
    destruct (targets_of_valid threshold pre Hvalid) as [y Hy].
    exists pre, P, post, x, y. split_and!; [done|done|done|]. right. split.
    - apply Hsig, elem_of_app. right. left.
    - by apply getitem_invalid. }
  split.
  - apply fit_Raise. by left.
  - apply test_Raise. left. by rewrite test_loop_fit_loop.
Qed.

(** X7. With an empty [threshold], [test] returns scores only when there
    is nothing to classify: the collection is empty and the regressor
    answers no prediction; the scores are then those of two empty lists of
    labels. *)
Theorem test_empty_threshold collection reg order acc roc :
  test collection reg [] order = Ok (acc, roc) →
  collection = [] ∧ predict reg [] = Ok [] ∧
  accuracy_score [] [] = Ok acc ∧ roc_auc_score [] [] = Ok roc.
Proof.
  unfold test.
  destruct (test_loop [] order collection [] []) as [[x y]|e] eqn:Hloop;
    [cbn|done].
  rewrite test_loop_fit_loop in Hloop.
  apply fit_loop_Ok in Hloop as (x' & y' & -> & -> & Hx & Hy).
  assert (collection = []) as ->.
  { destruct Hy as [|P t coll y Ht _]; [done|].
    apply getitem_Ok in Ht as [_ Ht]. by apply elem_of_nil in Ht. }
  inversion Hx; inversion Hy; subst. cbn [app].
  destruct (predict reg []) as [[|p raw]|e]; cbn; [|done|done].
  destruct (accuracy_score [] []) as [a|e]; cbn; [|done].
  destruct (roc_auc_score [] []) as [r|e]; cbn; [|done].
  by intros [= <- <-].
Qed.

(** X8. Whenever [test] returns, the labels it scored are indices of
    [threshold]: every true label and every predicted label is below
    [len(threshold)], and there is one true label per participant. *)
Theorem test_labels_in_range threshold collection order reg acc roc :
  test collection reg threshold order = Ok (acc, roc) →
  ∃ predicted_labels y_labels,
    accuracy_score y_labels predicted_labels = Ok acc ∧
    roc_auc_score y_labels predicted_labels = Ok roc ∧
    length y_labels = length collection ∧
    Forall (λ k, (k < length threshold)%nat) y_labels ∧
    Forall (λ k, (k < length threshold)%nat) predicted_labels.
Proof.
  unfold test.
  destruct (test_loop threshold order collection [] []) as [[x y]|e] eqn:Hloop;
    [cbn|done].
  rewrite test_loop_fit_loop in Hloop.
  apply fit_loop_Ok in Hloop as (x' & y' & -> & -> & Hx & Hy). cbn [app].
  destruct (predict reg x') as [raw|e]; [cbn|done].
  destruct (mapM _ (_ <$> raw)) as [pl|e] eqn:Hpl; [cbn|done].
  destruct (mapM _ y') as [yl|e] eqn:Hyl; [cbn|done].
  destruct (accuracy_score yl pl) as [a|e] eqn:Ha; [cbn|done].
  destruct (roc_auc_score yl pl) as [r|e] eqn:Hr; [cbn|done].
  intros [= <- <-]. exists pl, yl.
  apply mapM_list_index_bound in Hpl as [_ Hpl], Hyl as [Hlen Hyl].
  split_and!; try done.
  rewrite Hlen. symmetry. by eapply Forall2_length.
Qed.

(** X10. A prediction whose computed distance to the anchor of its
    participant is strictly smaller than to every other anchor gets the
    label of the participant: when this holds for all predictions, and no
    coordinate of [threshold] is NaN, [test] scores a list of labels
    against itself. *)
Theorem test_separated_predictions threshold order collection reg x y predicted_raw :
  (∀ q, q ∈ threshold → is_nan q.1 = false ∧ is_nan q.2 = false) →
  test_loop threshold order collection [] [] = Ok (x, y) →
  predict reg x = Ok predicted_raw →
  Forall2 (strictly_nearest threshold) predicted_raw y →
  ∃ labels,
    mapM (list_index point_eq threshold) y = Ok labels ∧
    mapM (list_index point_eq threshold)
         ((λ p, _findMin p threshold) <$> predicted_raw) = Ok labels ∧
    test collection reg threshold order =
      (acc ← accuracy_score labels labels;
       roc ← roc_auc_score labels labels;
       Ok (acc, roc)).
Proof.
  intros Hnan Hloop Hraw Hnear.
  assert ((λ p, _findMin p threshold) <$> predicted_raw = y) as Hpred.
  { clear Hloop Hraw. induction Hnear as [|p t raw y Hpt _ IH]; [done|].
    cbn. by rewrite (_findMin_strictly_nearest _ _ _ Hpt), IH. }
  assert (∀ v, v ∈ y → ∃ a, a ∈ threshold ∧ point_eq a v = true) as Hy.
  { intros v Hv. apply list_elem_of_lookup in Hv as [i Hi].
    pose proof (Forall2_lookup_r _ _ _ _ _ Hnear Hi) as (p & _ & [Hin _]).
    exists v. split; [done|]. by apply point_eq_refl, Hnan. }
  destruct (mapM_list_index_found point_eq threshold y Hy) as [labels Hlabels].
  exists labels. rewrite Hpred. split_and!; [done|done|].
  unfold test. rewrite Hloop. cbn. rewrite Hraw. cbn.
  by rewrite Hpred, Hlabels.
Qed.

End ModelEdges.

(** ** The cells of the two tables *)

Section Tables.
Context `{Externals}.

Lemma foldl_insert_is_Some {V} (value : turn → V) (ts : list turn)
    (m : gmap (string * string) V) (c : string * string) :
  is_Some (foldl (λ m t, <[turn_pair t := value t]> m) m ts !! c) ↔
  c ∈ turn_pair <$> ts ∨ is_Some (m !! c).
Proof.
  revert m. induction ts as [|t ts IH]; intros m; cbn.
  - split; [by right|]. intros [[]%elem_of_nil|]; done.
  - rewrite IH, elem_of_cons. destruct (decide (turn_pair t = c)) as [<-|Hne].
    + rewrite lookup_insert_eq. split; [intros _; by left; left|by eauto].
    + rewrite lookup_insert_ne by done. split.
      * intros [Hin|Hm]; [left; by right|by right].
      * intros [[Heq|Hin]|Hm]; [by destruct Hne|by left|by right].
Qed.

(** X9. At the end of every run, failed or not, the two tables are filled
    in step and along the order of the loop: for some number [n] of pairs,
    the cells that hold a value are, in both tables, those of the first
    [n] pairs of the loop and no other (no cell of the diagonal or below
    it), and [n] is 3 exactly when the script ends without an exception. *)
Theorem main_tables_in_step w :
  ∃ n : nat,
    (∀ c, is_Some (accuracy_results (main w).2 !! c) ↔ c ∈ take n main_pairs) ∧
    (∀ c, is_Some (auc_results (main w).2 !! c) ↔ c ∈ take n main_pairs) ∧
    ((main w).1 = Ok () ↔ n = 3%nat).
Proof.
  destruct (main w) as [r s] eqn:Hmain. cbn [fst snd].
  apply main_spec in Hmain as (ts & s1 & Hc & Hr).
  pose proof (completed_state _ _ _ _ Hc) as (_ & Ha & Hu). cbn in Ha, Hu.
  assert (accuracy_results s = accuracy_results s1 ∧
          auc_results s = auc_results s1 ∧
          turn_pair <$> ts = take (length ts) main_pairs ∧
          (r = Ok () ↔ length ts = 3%nat)) as (Ea & Eu & Hts & Hn).
  { destruct r as [[]|e].
    - destruct Hr as [Hts ->].
      assert (length ts = 3%nat) as Hlen
        by (rewrite <- (length_fmap turn_pair), Hts; reflexivity).
      split_and!; [done|done| |done].
      rewrite Hlen, <- Hts. symmetry. apply take_ge.
      rewrite length_fmap. lia.
    - destruct Hr as (group1 & group2 & rest & Hps & Hfail).
      apply failed_frame in Hfail as (Ea & Eu & _).
      assert (length main_pairs = 3%nat) as Hlen by reflexivity.
      rewrite Hps, length_app, length_fmap in Hlen. cbn in Hlen.
      split_and!; [done|done| |split; [done|lia]].
      rewrite Hps, <- (length_fmap turn_pair). symmetry. apply take_app_length. }
  exists (length ts). rewrite Ea, Eu, Ha, Hu, <- Hts. split_and!; [| |done].
  - intros c. rewrite foldl_insert_is_Some, lookup_empty.
    split; [intros [|[? [=]]]; done|by left].
  - intros c. rewrite foldl_insert_is_Some, lookup_empty.
    split; [intros [|[? [=]]]; done|by left].
Qed.

End Tables.

(** ** The further properties on the small library *)

Section ToyEdges.
Local Open Scope float_scope.

Lemma threshold_distinct_rows : distinct_rows threshold.
Proof.
  intros i j a b Ha Hb.
  destruct i as [|[|[|i]]], j as [|[|[|j]]]; try done;
    cbn in Ha, Hb; injection Ha as <-; injection Hb as <-;
    split; try done; vm_compute; done.
Qed.

(** X5 on the out-of-sample set of the pair (healthy, borderline): the
    labels are 0 and 2. *)
Lemma test_true_labels_are_diagnoses_witness :
  (distinct_rows threshold ∧
   test_loop (H := toy complete) threshold 2 (toy_os "healthy" "borderline") [] []
     = Ok ([[0; 0; 1; 2]; [0; 0; 1; 2]], [(1, 0); (-1 / sqrt 2, -1 / sqrt 2)])) ∧
  (mapM (list_index point_eq threshold) [(1, 0); (-1 / sqrt 2, -1 / sqrt 2)]
     = Ok ((λ P, Z.to_nat (diagnosis P `mod` Z.of_nat (length threshold)))
             <$> toy_os "healthy" "borderline") ∧
   ((∀ P, P ∈ toy_os "healthy" "borderline" → (0 ≤ diagnosis P)%Z) →
    mapM (list_index point_eq threshold) [(1, 0); (-1 / sqrt 2, -1 / sqrt 2)]
      = Ok ((λ P, Z.to_nat (diagnosis P)) <$> toy_os "healthy" "borderline"))).
Proof.
  split; [split; [exact threshold_distinct_rows|reflexivity]|].
  apply (test_true_labels_are_diagnoses (H := toy complete) threshold 2
           (toy_os "healthy" "borderline") [[0; 0; 1; 2]; [0; 0; 1; 2]]);
    [exact threshold_distinct_rows|reflexivity].
Defined.

(** X6 on a collection whose second participant has the diagnosis 3, one
    past the last anchor. *)
Lemma diagnosis_out_of_range_raises_witness :
  ((∀ Q, Q ∈ [toy_participant 1 0] ++ [toy_participant 2 3] →
      ∃ sg, stream2sig (Externals := toy complete) (data Q) 2 = Ok sg) ∧
   (∀ Q, Q ∈ [toy_participant 1 0] → valid_index threshold (diagnosis Q)) ∧
   ¬ valid_index threshold (diagnosis (toy_participant 2 3))) ∧
  (fit (H := toy complete)
     ([toy_participant 1 0] ++ toy_participant 2 3 :: [toy_participant 3 1])
     threshold 2 () = (Raise IndexError, ()) ∧
   test (H := toy complete)
     ([toy_participant 1 0] ++ toy_participant 2 3 :: [toy_participant 3 1])
     () threshold 2 = Raise IndexError).
Proof.
  assert (∀ Q, Q ∈ [toy_participant 1 0] ++ [toy_participant 2 3] →
            ∃ sg, stream2sig (Externals := toy complete) (data Q) 2 = Ok sg)
    as Hsig by (intros Q _; by eexists).
  assert (∀ Q, Q ∈ [toy_participant 1 0] → valid_index threshold (diagnosis Q))
    as Hvalid by (intros Q ->%list_elem_of_singleton; by vm_compute).
  assert (¬ valid_index threshold (diagnosis (toy_participant 2 3))) as Hout
    by (intros [_ Hlt]; by vm_compute in Hlt).
  split; [done|].
  apply (diagnosis_out_of_range_raises (H := toy complete) threshold 2
           [toy_participant 1 0] (toy_participant 2 3) [toy_participant 3 1] () ());
    done.
Defined.

(** X7 on the empty collection. *)
Lemma test_empty_threshold_witness :
  test (H := toy complete) [] () [] 2 = Ok (agreement [] [], 0.5) ∧
  (([] : list Participant) = [] ∧
   predict (Externals := toy complete) () [] = Ok [] ∧
   accuracy_score (Externals := toy complete) [] [] = Ok (agreement [] []) ∧
   roc_auc_score (Externals := toy complete) [] [] = Ok 0.5).
Proof.
  split; [reflexivity|].
  apply (test_empty_threshold (H := toy complete) [] () 2). reflexivity.
Defined.

(** X8 on the out-of-sample set of the pair (healthy, bipolar). *)
Lemma test_labels_in_range_witness :
  test (H := toy complete) (toy_os "healthy" "bipolar") () threshold 2
    = Ok (agreement [0; 1]%nat [0; 0]%nat, 0.5) ∧
  ∃ predicted_labels y_labels,
    accuracy_score (Externals := toy complete) y_labels predicted_labels
      = Ok (agreement [0; 1]%nat [0; 0]%nat) ∧
    roc_auc_score (Externals := toy complete) y_labels predicted_labels
      = Ok 0.5 ∧
    length y_labels = length (toy_os "healthy" "bipolar") ∧
    Forall (λ k, (k < length threshold)%nat) y_labels ∧
    Forall (λ k, (k < length threshold)%nat) predicted_labels.
Proof.
  split; [apply toy_test_healthy_bipolar|].
  apply (test_labels_in_range (H := toy complete) threshold
           (toy_os "healthy" "bipolar") 2 ()).
  apply toy_test_healthy_bipolar.
Defined.

(** The first anchor is strictly nearest to itself. *)
Lemma first_anchor_strictly_nearest : strictly_nearest threshold (1, 0) (1, 0).
Proof.
  split; [left|]. intros q Hq Hne. unfold threshold in Hq.
  repeat (apply elem_of_cons in Hq as [->|Hq]); try done.
  by apply elem_of_nil in Hq.
Qed.

(** X10 on two healthy participants: the regressor of the small library
    answers their anchor. *)
Lemma test_separated_predictions_witness :
  ((∀ q, q ∈ threshold → is_nan q.1 = false ∧ is_nan q.2 = false) ∧
   test_loop (H := toy complete) threshold 2 (toy_os "healthy" "healthy") [] []
     = Ok ([[0; 0; 1; 2]; [0; 0; 1; 2]], [(1, 0); (1, 0)]) ∧
   predict (Externals := toy complete) () [[0; 0; 1; 2]; [0; 0; 1; 2]]
     = Ok [(1, 0); (1, 0)] ∧
   Forall2 (strictly_nearest threshold) [(1, 0); (1, 0)] [(1, 0); (1, 0)]) ∧
  ∃ labels,
    mapM (list_index point_eq threshold) [(1, 0); (1, 0)] = Ok labels ∧
    mapM (list_index point_eq threshold)
         ((λ p, _findMin p threshold) <$> [(1, 0); (1, 0)]) = Ok labels ∧
    test (H := toy complete) (toy_os "healthy" "healthy") () threshold 2 =
      (acc ← accuracy_score (Externals := toy complete) labels labels;
       roc ← roc_auc_score (Externals := toy complete) labels labels;
       Ok (acc, roc)).
Proof.
  assert (Forall2 (strictly_nearest threshold) [(1, 0); (1, 0)] [(1, 0); (1, 0)])
    as Hnear.
  { constructor; [exact first_anchor_strictly_nearest|].
    constructor; [exact first_anchor_strictly_nearest|]. constructor. }
  split; [split_and!; [exact threshold_no_nan|reflexivity|reflexivity|exact Hnear]|].
  apply (test_separated_predictions (H := toy complete) threshold 2
           (toy_os "healthy" "healthy") () [[0; 0; 1; 2]; [0; 0; 1; 2]]
           [(1, 0); (1, 0)] [(1, 0); (1, 0)]);
    [exact threshold_no_nan|reflexivity|reflexivity|exact Hnear].
Defined.

End ToyEdges.

